(** * folder-tail: the tail engine of [internal/tailer/tailer.go]

    A shallow embedding of the line splitter, the seek-tail of the last
    [n] lines, the incremental reader, the text classifier, the pattern
    matcher and the path pruning of the tail engine, together with the
    properties the specification states about them.

    Conventions of the embedding.
    - A Go [[]byte] is a [list byte]; a Go [string] is a [string]; the
      conversion [string(b)] is [string_of_list_byte].  A nil slice and
      an empty slice are both [[]]: the code only ever tests [len].
    - Go [int] and [int64] values that the code compares with zero
      (offsets, sizes, the line count, the byte ceiling) are [Z]; slice
      positions are [nat].
    - The file system is a snapshot: a finite map from paths to nodes.
      A call returns the error (if any), the new [fileState], the [Line]
      values handed to [sendLine], in order (what the bounded queue
      then does with them is not modelled), and the log of the file
      operations it performed.
    - Functions of Go's standard library that the engine calls but that
      are not part of this repository are the fields of [GoStdlib]. *)

From Stdlib Require Import ZArith Lia List Bool.
From Stdlib Require Import Strings.String Strings.Ascii Strings.Byte.
From stdpp Require Import base tactics option list strings gmap fin_maps.

Local Open Scope string_scope.
Local Open Scope Z_scope.
Local Open Scope nat_scope.
Local Open Scope list_scope.

(** ** Bytes and slices *)

#[global] Instance byte_eq_decision : EqDecision byte := byte_eq_dec.

(** ['\n'] and ['\r']. *)
Definition LF : byte := x0a.
Definition CR : byte := x0d.

(** [data[lo:hi]] *)
Definition slice {A} (data : list A) (lo hi : nat) : list A :=
  take (hi - lo) (drop lo data).

(** [bytes.IndexByte(data, c)]: position of the first [c], or [-1]. *)
Fixpoint IndexByte (data : list byte) (c : byte) : Z :=
  match data with
  | [] => (-1)%Z
  | b :: rest =>
      if decide (b = c) then 0%Z
      else let i := IndexByte rest c in
           if (i <? 0)%Z then (-1)%Z else (i + 1)%Z
  end.

(** [bytes.Count(data, []byte{c})] *)
Fixpoint CountByte (data : list byte) (c : byte) : Z :=
  match data with
  | [] => 0%Z
  | b :: rest => ((if decide (b = c) then 1 else 0) + CountByte rest c)%Z
  end.

(** ** Line splitting *)

Definition trimTrailingCR (data : list byte) : list byte :=
  if decide (length data = 0) then data
  else if decide (data !! (length data - 1) = Some CR)
       then take (length data - 1) data
       else data.

(** The [for i, b := range data] loop of [splitLines]: [todo] is
    [data[i:]], the loop variables are [start] and [lines]. *)
Fixpoint splitLines_range (data : list byte) (i : nat) (todo : list byte)
    (start : nat) (lines : list string) : nat * list string :=
  match todo with
  | [] => (start, lines)
  | b :: todo' =>
      if decide (b = LF) then
        let line := slice data start i in
        let line := trimTrailingCR line in
        splitLines_range data (S i) todo' (S i)
                         (lines ++ [string_of_list_byte line])
      else splitLines_range data (S i) todo' start lines
  end.

Definition splitLines (data : list byte) : list string * list byte :=
  if decide (length data = 0) then ([], [])
  else
    let '(start, lines) := splitLines_range data 0 data 0 [] in
    if decide (start < length data) then
      let partial := drop start data in
      let partial := trimTrailingCR partial in
      (lines, partial)
    else (lines, []).

(** Reinserting a terminator after every line and appending the rest. *)
Definition joinLines (lines : list (list byte)) (rest : list byte) : list byte :=
  concat (map (λ l, l ++ [LF]) lines) ++ rest.

(** ** Go values shared by the engine *)

(** [len(x)] as a Go [int]. *)
Definition len {A} (l : list A) : Z := Z.of_nat (length l).

Definition readChunkSize : Z := 4096.
Definition defaultSampleSize : Z := 512.
Definition defaultMaxLine : Z := 1024 * 1024.

(** The errors the modelled calls can return. *)
Inductive error :=
| ErrNotExist                      (* os.ErrNotExist *)
| ErrInvalid                       (* seek before the start of the file *)
| ErrIsDir                         (* read of a directory *)
| ErrBadPattern                    (* path.ErrBadPattern *)
| ErrSyntax (msg : string)         (* regexp syntax error *)
| ErrRel                           (* filepath.Rel failed *)
| ErrWrap (msg value : string) (cause : error).   (* fmt.Errorf("... %q: %w") *)

(** A node of the file-system snapshot: a regular file with its content,
    or a directory, for which [os.Stat] reports some size and on which
    [Read] fails.  Nodes of other kinds (devices, pipes), on which a
    [Read] can succeed, are left out of the snapshot. *)
Inductive node :=
| Regular (data : list byte)
| NonRegular (size : Z).

(** [os.FileInfo], as far as the engine looks at it. *)
Record FileInfo := { Mode_IsRegular : bool; Size : Z }.

(** The file operations a call performs, in order. *)
Inductive fsOp :=
| OpStat (path : string)
| OpOpen (path : string)
| OpSeek (offset : Z)
| OpRead (n : Z)                   (* a [file.Read] that returned [n] bytes *)
| OpClose.

Definition os_Stat (fs : gmap string node) (path : string) : FileInfo + error :=
  match fs !! path with
  | None => inr ErrNotExist
  | Some (Regular data) => inl {| Mode_IsRegular := true; Size := len data |}
  | Some (NonRegular size) => inl {| Mode_IsRegular := false; Size := size |}
  end.

Record Line := {
  Path : string;
  Text : string;
  Partial : bool;
  Update : bool;
}.

Record fileState := {
  offset : Z;
  partial : list byte;
  partialDisplayed : bool;
}.

(** [&fileState{}] *)
Definition fileState_zero : fileState :=
  {| offset := 0; partial := []; partialDisplayed := false |}.

Record Config := {
  Root : string;
  N : Z;
  FromStart : bool;
  Absolute : bool;
  ForceRegex : bool;
  Recursive : bool;
  MaxLineBytes : Z;
}.

Definition truncateLineBytes (data : list byte) (max : Z) : string * bool :=
  if ((max >? 0) && (len data >? max))%Z
  then (string_of_list_byte (take (Z.to_nat max) data) +:+ " [truncated]", true)
  else (string_of_list_byte data, false).

(** ** Functions of Go's standard library

    [path.Match], [filepath.Match], [filepath.Base], [filepath.Rel],
    [regexp.Compile], [Regexp.MatchString], [strings.TrimSpace],
    [http.DetectContentType], [utf8.Valid] and [os.PathSeparator] belong
    to the Go distribution, not to this repository. *)
Class GoStdlib := {
  Regexp : Type;
  os_PathSeparator : ascii;
  regexp_Compile : string → Regexp + error;
  Regexp_MatchString : Regexp → string → bool;
  path_Match : string → string → bool * option error;
  filepath_Match : string → string → bool * option error;
  filepath_Base : string → string;
  filepath_Rel : string → string → string + error;
  strings_TrimSpace : string → string;
  http_DetectContentType : list byte → string;
  utf8_Valid : list byte → bool;
}.

(** ** The incremental reader *)

(** The variables of the read loop of [readFromOffset]. *)
Record readLoop_vars := {
  carry : list byte;
  updatedPartial : bool;
  totalRead : Z;
  sent : list Line;                (* the arguments of [t.sendLine], in order *)
  ops : list fsOp;
}.

(** What a call of [readFromOffset] or [readNew] leaves behind. *)
Record readResult := {
  r_err : option error;
  r_state : fileState;
  r_sent : list Line;
  r_ops : list fsOp;
}.

Section Reader.
Context `{GoStdlib}.
Variable cfg : Config.

Definition displayPath (path : string) : string :=
  if Absolute cfg then path
  else match filepath_Rel (Root cfg) path with
       | inr _ => path
       | inl rel => rel
       end.

Section ReadLoop.
Variable pathDisplay : string.
Variable hadPartial : bool.
Variable maxBytes : Z.

(** [t.sendLine(Line{Path: pathDisplay, Text: text, Partial: p,
    Update: update}); if update { updatedPartial = true }] with
    [update := hadPartial && !updatedPartial]. *)
Definition emit (text : string) (isPartial : bool) (v : readLoop_vars)
    (newCarry : list byte) : readLoop_vars :=
  let update := hadPartial && negb (updatedPartial v) in
  {| carry := newCarry;
     updatedPartial := if update then true else updatedPartial v;
     totalRead := totalRead v;
     sent := sent v ++ [{| Path := pathDisplay; Text := text;
                           Partial := isPartial; Update := update |}];
     ops := ops v |}.

Definition set_carry (v : readLoop_vars) (c : list byte) : readLoop_vars :=
  {| carry := c; updatedPartial := updatedPartial v;
     totalRead := totalRead v; sent := sent v; ops := ops v |}.

(** [for len(data) > 0 { ... }]: every turn that does not break
    drops [idx+1 >= 1] bytes of [data], so [length data] turns of
    fuel are never used up ([scanChunk_fuel]). *)
Fixpoint scanChunk (fuel : nat) (data : list byte) (v : readLoop_vars)
    : readLoop_vars :=
  match fuel with
  | 0 => v
  | S fuel' =>
      if (len data >? 0)%Z then
        let idx := IndexByte data LF in
        if (idx <? 0)%Z then
          let carry1 := carry v ++ data in
          if ((maxBytes >? 0) && (len carry1 >? maxBytes))%Z then
            let '(text, truncated) := truncateLineBytes carry1 maxBytes in
            if truncated then emit text false v []
            else set_carry v carry1
          else set_carry v carry1
        else
          let lineBytes := carry v ++ take (Z.to_nat idx) data in
          let lineBytes := trimTrailingCR lineBytes in
          let '(text, _) := truncateLineBytes lineBytes maxBytes in
          scanChunk fuel' (drop (Z.to_nat (idx + 1)) data) (emit text false v [])
      else v
  end.

(** [for { n, err := file.Read(buf); ... }] on a regular file whose
    content is [file], read position [pos]: [Read] returns the next
    at most [readChunkSize] bytes, and [0, io.EOF] at the end.  More
    fuel than there are bytes from [pos] on is never used up
    ([readLoop_fuel]). *)
Fixpoint readLoop (fuel : nat) (file : list byte) (pos : nat)
    (v : readLoop_vars) : readLoop_vars :=
  match fuel with
  | 0 => v
  | S fuel' =>
      let data := take (Z.to_nat readChunkSize) (drop pos file) in
      let n := len data in
      let v := {| carry := carry v; updatedPartial := updatedPartial v;
                  totalRead := totalRead v; sent := sent v;
                  ops := ops v ++ [OpRead n] |} in
      if (n >? 0)%Z then
        let v := {| carry := carry v; updatedPartial := updatedPartial v;
                    totalRead := (totalRead v + n)%Z; sent := sent v;
                    ops := ops v |} in
        readLoop fuel' file (pos + length data) (scanChunk (length data) data v)
      else v
  end.
End ReadLoop.

Definition readFromOffset (fs : gmap string node) (path : string)
    (state : fileState) (offset0 : Z) (includeExistingPartial : bool)
    : readResult :=
  match fs !! path with
  | None =>
      {| r_err := Some ErrNotExist; r_state := state; r_sent := [];
         r_ops := [OpOpen path] |}
  | Some nd =>
      if (offset0 <? 0)%Z then
        {| r_err := Some ErrInvalid; r_state := state; r_sent := [];
           r_ops := [OpOpen path; OpSeek offset0; OpClose] |}
      else
        match nd with
        | NonRegular _ =>
            {| r_err := Some ErrIsDir; r_state := state; r_sent := [];
               r_ops := [OpOpen path; OpSeek offset0; OpRead 0; OpClose] |}
        | Regular file =>
            let pathDisplay := displayPath path in
            let hadPartial :=
              partialDisplayed state && includeExistingPartial
              && (len (partial state) >? 0)%Z in
            let maxBytes := MaxLineBytes cfg in
            let carry0 :=
              if includeExistingPartial && (len (partial state) >? 0)%Z
              then [] ++ partial state else [] in
            let v := readLoop pathDisplay hadPartial maxBytes
                       (S (length file)) file (Z.to_nat offset0)
                       {| carry := carry0; updatedPartial := false;
                          totalRead := 0; sent := [];
                          ops := [OpOpen path; OpSeek offset0] |} in
            if (len (carry v) >? 0)%Z then
              let partial1 := trimTrailingCR (carry v) in
              let '(text, truncated) := truncateLineBytes partial1 maxBytes in
              let v' := emit pathDisplay hadPartial text (negb truncated) v (carry v) in
              {| r_err := None;
                 r_state :=
                   if truncated
                   then {| offset := (offset0 + totalRead v)%Z;
                           partial := []; partialDisplayed := false |}
                   else {| offset := (offset0 + totalRead v)%Z;
                           partial := [] ++ partial1; partialDisplayed := true |};
                 r_sent := sent v';
                 r_ops := ops v' ++ [OpClose] |}
            else
              {| r_err := None;
                 r_state := {| offset := (offset0 + totalRead v)%Z;
                               partial := []; partialDisplayed := false |};
                 r_sent := sent v;
                 r_ops := ops v ++ [OpClose] |}
        end
  end.

Definition readNew (fs : gmap string node) (path : string) (state : fileState)
    : readResult :=
  match os_Stat fs path with
  | inr err =>
      {| r_err := Some err; r_state := state; r_sent := []; r_ops := [OpStat path] |}
  | inl info =>
      if negb (Mode_IsRegular info) then
        {| r_err := None; r_state := state; r_sent := []; r_ops := [OpStat path] |}
      else if (Size info =? offset state)%Z then
        {| r_err := None; r_state := state; r_sent := []; r_ops := [OpStat path] |}
      else
        let state :=
          if (Size info <? offset state)%Z
          then {| offset := 0; partial := []; partialDisplayed := false |}
          else state in
        let r := readFromOffset fs path state (offset state) true in
        {| r_err := r_err r; r_state := r_state r; r_sent := r_sent r;
           r_ops := OpStat path :: r_ops r |}
  end.
End Reader.

(** ** Seek-tail of the last [n] lines *)

(** The backward read loop of [tailLastLines]; [file.ReadAt(buf,
    remaining)] fills [buf] with [file[remaining : remaining+readSize]].
    Every turn lowers [remaining] by [readSize >= 1], so [length file]
    turns of fuel are never used up ([tailLoop_fuel]). *)
Fixpoint tailLoop (fuel : nat) (file : list byte) (n : Z)
    (remaining lineCount : Z) (chunks : list (list byte)) : list (list byte) :=
  match fuel with
  | 0 => chunks
  | S fuel' =>
      if ((remaining >? 0) && (lineCount <=? n))%Z then
        let readSize := readChunkSize in
        let readSize := if (remaining <? readSize)%Z then remaining else readSize in
        let remaining := (remaining - readSize)%Z in
        let buf := slice file (Z.to_nat remaining) (Z.to_nat (remaining + readSize)) in
        tailLoop fuel' file n remaining (lineCount + CountByte buf LF)%Z (chunks ++ [buf])
      else chunks
  end.

(** [lines[len(lines)-k:]] *)
Definition lastLines {A} (k : Z) (lines : list A) : list A :=
  drop (Z.to_nat (len lines - k)) lines.

Definition tailLastLines (fs : gmap string node) (path : string) (n : Z)
    : list string * list byte * option error :=
  if (n <=? 0)%Z then ([], [], None)
  else
    match fs !! path with
    | None => ([], [], Some ErrNotExist)
    | Some (NonRegular size) =>
        (* [ReadAt] fails as soon as the loop is entered *)
        if (size =? 0)%Z then ([], [], None)
        else if (size >? 0)%Z then ([], [], Some ErrIsDir)
        else ([], [], None)
    | Some (Regular file) =>
        if (len file =? 0)%Z then ([], [], None)
        else
          let chunks := tailLoop (length file) file n (len file) 0 [] in
          (* for i := len(chunks) - 1; i >= 0; i-- { data = append(data, chunks[i]...) } *)
          let data := concat (reverse chunks) in
          let '(lines, partial) := splitLines data in
          if (len partial >? 0)%Z then
            let lines := if (len lines >? n - 1)%Z then lastLines (n - 1) lines else lines in
            (lines, partial, None)
          else
            let lines := if (len lines >? n)%Z then lastLines n lines else lines in
            (lines, [], None)
    end.

Section InitFile.
Context `{GoStdlib}.
Variable cfg : Config.

(** [initFile]: the error, the new state and the lines sent. *)
Definition initFile (fs : gmap string node) (path : string) (state : fileState)
    : option error * fileState * list Line :=
  if FromStart cfg then
    let r := readFromOffset cfg fs path state 0 false in
    (r_err r, r_state r, r_sent r)
  else
    let '(err, state, out) :=
      if (N cfg >? 0)%Z then
        let '(lines, partial, err) := tailLastLines fs path (N cfg) in
        match err with
        | Some e => (Some e, state, [])
        | None =>
            let out := map (λ line, {| Path := displayPath cfg path; Text := line;
                                       Partial := false; Update := false |}) lines in
            if (len partial >? 0)%Z then
              (None,
               {| offset := offset state; partial := partial; partialDisplayed := true |},
               out ++ [{| Path := displayPath cfg path;
                          Text := string_of_list_byte partial;
                          Partial := true; Update := false |}])
            else (None, state, out)
        end
      else (None, state, []) in
    match err with
    | Some e => (Some e, state, out)
    | None =>
        match os_Stat fs path with
        | inr e => (Some e, state, out)
        | inl info =>
            (None,
             {| offset := Size info; partial := partial state;
                partialDisplayed := partialDisplayed state |},
             out)
        end
    end.
End InitFile.

(** ** Text classification *)

(** [strings.HasPrefix(s, prefix)] *)
Definition HasPrefix (s prefix : string) : bool := String.prefix prefix s.

(** [strings.TrimPrefix(s, prefix)] *)
Definition TrimPrefix (s prefix : string) : string :=
  if HasPrefix s prefix
  then substring (String.length prefix) (String.length s - String.length prefix) s
  else s.

Section TextClassifier.
Context `{GoStdlib}.

Definition isTextData (data : list byte) : bool :=
  if (len data =? 0)%Z then true
  else if (IndexByte data x00 >=? 0)%Z then false
  else
    let contentType := http_DetectContentType data in
    if HasPrefix contentType "text/" then true
    else if decide (contentType = "application/json") then true
    else if decide (contentType = "application/xml") then true
    else if decide (contentType = "application/javascript") then true
    else if decide (contentType = "application/x-www-form-urlencoded") then true
    else utf8_Valid data.

(** [isTextFile]: the first [defaultSampleSize] bytes decide. *)
Definition isTextFile (fs : gmap string node) (path : string) : bool * option error :=
  match fs !! path with
  | None => (false, Some ErrNotExist)
  | Some (NonRegular _) => (false, Some ErrIsDir)
  | Some (Regular file) => (isTextData (take (Z.to_nat defaultSampleSize) file), None)
  end.
End TextClassifier.

(** ** Patterns *)

Inductive patternKind := patternGlob | patternRegex.

#[global] Instance patternKind_eq_decision : EqDecision patternKind.
Proof. solve_decision. Defined.

(** [strings.ContainsAny(s, "/\\")] *)
Fixpoint ContainsAny_slashes (s : string) : bool :=
  match s with
  | EmptyString => false
  | String c rest =>
      if decide (c = "/"%char) then true
      else if decide (c = "\"%char) then true
      else ContainsAny_slashes rest
  end.

Definition usesPathPattern (pat : string) : bool := ContainsAny_slashes pat.

Definition stripRegexPrefix (value : string) : string := TrimPrefix value "re:".

Definition patternKindFor (value : string) (forceRegex : bool) : patternKind * string :=
  if forceRegex then (patternRegex, stripRegexPrefix value)
  else if HasPrefix value "re:" then (patternRegex, TrimPrefix value "re:")
  else (patternGlob, value).

Definition normalizeGlobPattern (pat : string) : string :=
  if HasPrefix pat "./" || HasPrefix pat ".\"
  then substring 2 (String.length pat - 2) pat
  else pat.

Section Patterns.
Context `{GoStdlib}.

Record pattern := {
  raw : string;
  kind : patternKind;
  glob : string;
  re : option Regexp;            (* [nil] in a glob pattern *)
  pathPattern : bool;
}.

(** [filepath.ToSlash] *)
Fixpoint ReplaceSeparator (s : string) : string :=
  match s with
  | EmptyString => EmptyString
  | String c rest =>
      String (if decide (c = os_PathSeparator) then "/"%char else c)
             (ReplaceSeparator rest)
  end.

Definition filepath_ToSlash (p : string) : string :=
  if decide (os_PathSeparator = "/"%char) then p else ReplaceSeparator p.

Definition validateGlob (pat : string) : option error :=
  if decide (pat = "") then None
  else if usesPathPattern pat
       then snd (path_Match (filepath_ToSlash pat) "dir/file")
       else snd (filepath_Match pat "file").

(** The [for _, value := range values] loop of [compilePatterns]. *)
Fixpoint compilePatterns_range (values : list string) (forceRegex : bool)
    (patterns : list pattern) : list pattern + error :=
  match values with
  | [] => inl patterns
  | value :: values' =>
      let value := strings_TrimSpace value in
      if decide (value = "") then compilePatterns_range values' forceRegex patterns
      else
        let '(kind0, raw0) := patternKindFor value forceRegex in
        if decide (kind0 = patternRegex) then
          match regexp_Compile raw0 with
          | inr err => inr (ErrWrap "invalid regex pattern" value err)
          | inl re0 =>
              compilePatterns_range values' forceRegex
                (patterns ++ [{| raw := value; kind := kind0; glob := "";
                                 re := Some re0; pathPattern := false |}])
          end
        else
          let glob0 := normalizeGlobPattern raw0 in
          let pathPattern0 := usesPathPattern glob0 in
          match validateGlob glob0 with
          | Some err => inr (ErrWrap "invalid glob pattern" value err)
          | None =>
              compilePatterns_range values' forceRegex
                (patterns ++ [{| raw := value; kind := kind0; glob := glob0;
                                 re := None; pathPattern := pathPattern0 |}])
          end
  end.

Definition compilePatterns (values : list string) (forceRegex : bool)
    : list pattern + error :=
  compilePatterns_range values forceRegex [].

(** [matchCompiledPattern]; [None] is the run-time panic of calling
    [MatchString] through a nil [re]. *)
Definition matchCompiledPattern (p : pattern) (name rel : string)
    : option (bool * option error) :=
  match kind p with
  | patternRegex =>
      let rel := filepath_ToSlash rel in
      match re p with
      | Some r => Some (Regexp_MatchString r rel, None)
      | None => None
      end
  | patternGlob =>
      if pathPattern p then
        let rel := filepath_ToSlash rel in
        Some (path_Match (glob p) rel)
      else Some (filepath_Match (glob p) name)
  end.

(** The loop over [t.includes]: the value of [matched] at its end. *)
Fixpoint includes_range (ps : list pattern) (name rel : string) (matched : bool)
    : option bool :=
  match ps with
  | [] => Some matched
  | p :: ps' =>
      match matchCompiledPattern p name rel with
      | None => None
      | Some (_, Some _) => includes_range ps' name rel matched     (* continue *)
      | Some (ok, None) =>
          if ok then Some true                                     (* break *)
          else includes_range ps' name rel matched
      end
  end.

(** The loop over [t.excludes]: [Some false] is its [return false],
    [Some true] is falling through to the final [return true]. *)
Fixpoint excludes_range (ps : list pattern) (name rel : string) : option bool :=
  match ps with
  | [] => Some true
  | p :: ps' =>
      match matchCompiledPattern p name rel with
      | None => None
      | Some (_, Some _) => excludes_range ps' name rel
      | Some (ok, None) =>
          if ok then Some false else excludes_range ps' name rel
      end
  end.

Definition shouldInclude (root : string) (includes excludes : list pattern)
    (path : string) : option bool :=
  if (len includes =? 0)%Z && (len excludes =? 0)%Z then Some true
  else
    let name := filepath_Base path in
    let rel := match filepath_Rel root path with
               | inr _ => path
               | inl rel => rel
               end in
    match
      (if (len includes >? 0)%Z then includes_range includes name rel false
       else Some true)
    with
    | None => None
    | Some false => Some false
    | Some true =>
        if (len excludes >? 0)%Z then excludes_range excludes name rel
        else Some true
    end.
End Patterns.

(** ** The tracked files and the watch set *)

Record Tailer := {
  watcher : gset string;             (* the directories subscribed with fsnotify *)
  states : gmap string fileState;
  watchedDir : gset string;
}.

Section RemovePath.
Context `{GoStdlib}.

(** [for filePath := range t.states { if strings.HasPrefix(filePath,
    prefix) { delete(t.states, filePath) } }], over the keys in the
    order the map yields them. *)
Definition prune_range (prefix : string) (keys : list string)
    (m : gmap string fileState) : gmap string fileState :=
  foldl (λ m filePath, if HasPrefix filePath prefix then delete filePath m else m)
        m keys.

Definition removePath (t : Tailer) (path : string) : Tailer :=
  if decide (path ∈ watchedDir t) then
    let prefix := path +:+ String os_PathSeparator "" in
    {| watcher := watcher t ∖ {[path]};
       watchedDir := watchedDir t ∖ {[path]};
       states := prune_range prefix (map_to_list (states t)).*1 (states t) |}
  else
    {| watcher := watcher t;
       watchedDir := watchedDir t;
       states := delete path (states t) |}.
End RemovePath.

(** ** A small instance of the library functions

    Used to run the definitions on concrete inputs: a Unix separator,
    patterns without metacharacters (a glob or a regular expression
    matches the string equal to it), no white space to trim, every
    sample sniffed as [application/octet-stream], and the ASCII bytes as
    the valid UTF-8. *)

Fixpoint lastElement (s acc : string) : string :=
  match s with
  | EmptyString => acc
  | String c rest =>
      if decide (c = "/"%char) then lastElement rest ""
      else lastElement rest (acc +:+ String c "")
  end.

#[global] Instance literalStdlib : GoStdlib := {|
  Regexp := string;
  os_PathSeparator := "/"%char;
  regexp_Compile := λ s, inl s;
  Regexp_MatchString := λ r s, bool_decide (r = s);
  path_Match := λ pat s, (bool_decide (pat = s), None);
  filepath_Match := λ pat s, (bool_decide (pat = s), None);
  filepath_Base := λ p, lastElement p "";
  filepath_Rel := λ root p,
    if HasPrefix p (root +:+ "/")
    then inl (substring (String.length root + 1)
                        (String.length p - (String.length root + 1)) p)
    else inr ErrRel;
  strings_TrimSpace := λ s, s;
  http_DetectContentType := λ _, "application/octet-stream";
  utf8_Valid := λ data, forallb (λ b, (Byte.to_nat b <? 128)%nat) data;
|}.

(** ** Notions the stated properties are phrased in *)

(** The terminator-free pieces of a byte sequence: the pieces that are
    followed by a line terminator, in order, and what follows the last
    terminator. *)
Fixpoint pieces (data : list byte) : list (list byte) * list byte :=
  match data with
  | [] => ([], [])
  | b :: rest =>
      let '(ls, r) := pieces rest in
      if decide (b = LF) then ([] :: ls, r)
      else match ls with
           | [] => ([], b :: r)
           | l :: ls' => ((b :: l) :: ls', r)
           end
  end.

(** The complete lines of a file, as the engine shows them: every
    terminated piece with one trailing carriage return stripped. *)
Definition completeLines (file : list byte) : list string :=
  map (λ l, string_of_list_byte (trimTrailingCR l)) (fst (pieces file)).

(** The final unterminated fragment of a file. *)
Definition fragment (file : list byte) : list byte := snd (pieces file).

Definition endsWithLF (file : list byte) : Prop := last file = Some LF.

(** [out] is [raw] with a single trailing carriage return stripped:
    [raw] is [out] and one carriage return, or [raw] does not end in a
    carriage return and [out] is [raw]. *)
Definition stripsOneCR (raw out : list byte) : Prop :=
  raw = out ++ [CR] ∨ (raw = out ∧ last raw ≠ Some CR).

(** [filePath] lies strictly under the directory [dir]: it is [dir],
    a separator, and something more. *)
Definition strictlyUnder `{GoStdlib} (dir filePath : string) : Prop :=
  ∃ rest, filePath = dir +:+ String os_PathSeparator "" +:+ rest.

(** A line event of [path] that is neither a partial nor an update. *)
Definition plainLine (pathDisplay text : string) : Line :=
  {| Path := pathDisplay; Text := text; Partial := false; Update := false |}.

(** The event of a partial that is not an update. *)
Definition partialLine (pathDisplay text : string) : Line :=
  {| Path := pathDisplay; Text := text; Partial := true; Update := false |}.

(** The structured formats that count as text whatever their bytes. *)
Definition textualTypes : list string :=
  ["application/json"; "application/xml"; "application/javascript";
   "application/x-www-form-urlencoded"].

Section PatternNotions.
Context `{GoStdlib}.

(** A match that a loop of [shouldInclude] counts: reported without
    an error. *)
Definition matched (res : bool * option error) : bool :=
  match res with
  | (ok, None) => ok
  | (_, Some _) => false
  end.

(** The pattern [p] matches the path whose base name is [name] and
    whose path relative to the root is [rel]: a regular expression is
    tried on the slash-normalized relative path; a glob with a
    separator in it on the slash-normalized relative path; a glob
    without one on the base name. *)
Definition patternMatches (p : pattern) (name rel : string) : bool :=
  match kind p with
  | patternRegex =>
      match re p with
      | Some r => Regexp_MatchString r (filepath_ToSlash rel)
      | None => false
      end
  | patternGlob =>
      if usesPathPattern (glob p)
      then matched (path_Match (glob p) (filepath_ToSlash rel))
      else matched (filepath_Match (glob p) name)
  end.

(** What [compilePatterns] establishes of every pattern it returns. *)
Definition compiled (forceRegex : bool) (p : pattern) : Prop :=
  match kind p with
  | patternRegex =>
      is_Some (re p)
      ∧ (forceRegex = true ∨ HasPrefix (raw p) "re:" = true)
  | patternGlob =>
      forceRegex = false
      ∧ HasPrefix (raw p) "re:" = false
      ∧ glob p = normalizeGlobPattern (raw p)
      ∧ pathPattern p = usesPathPattern (glob p)
  end.
End PatternNotions.

Section Events.
Variable pathDisplay : string.
Variable hadPartial : bool.

(** The event that a call sends as its [i]-th (from 0): only the first
    can be an update, and it is one exactly if a displayed partial was
    held. *)
Definition event (i : nat) (text : string) (isPartial : bool) : Line :=
  {| Path := pathDisplay; Text := text; Partial := isPartial;
     Update := hadPartial && bool_decide (i = 0) |}.

(** The events of the complete lines [ls], sent after [k] others. *)
Fixpoint lineEvents (k : nat) (ls : list (list byte)) : list Line :=
  match ls with
  | [] => []
  | l :: ls' =>
      event k (string_of_list_byte (trimTrailingCR l)) false :: lineEvents (S k) ls'
  end.
End Events.

Definition nonempty {A} (l : list A) : bool :=
  match l with [] => false | _ => true end.

(** What the read loop keeps true of its variables: [updatedPartial]
    says whether the one update was sent; only an event sent first can
    carry the flag, and it does exactly if a displayed partial was there;
    and as long as nothing was sent, the partial is still in [carry]. *)
Record flags_ok (hadPartial : bool) (v : readLoop_vars) : Prop := {
  fo_updated : updatedPartial v = hadPartial && nonempty (sent v);
  fo_flags : ∀ i e, sent v !! i = Some e →
               Update e = hadPartial && bool_decide (i = 0);
  fo_carry : hadPartial = true → sent v = [] → carry v ≠ [];
}.

(** Two states of the read loop that hold the same accumulator and
    have sent the same events; they may differ in what they count and
    log. *)
Definition same_events (v w : readLoop_vars) : Prop :=
  carry v = carry w ∧ updatedPartial v = updatedPartial w ∧ sent v = sent w.

(** ** Inputs of the repository's tests *)

(** A [Tailer] configuration as the tests build it, with the byte
    ceiling [ceiling]. *)
Definition test_cfg (ceiling : Z) : Config :=
  {| Root := "/tmp"; N := 0; FromStart := false; Absolute := true;
     ForceRegex := false; Recursive := true; MaxLineBytes := ceiling |}.

(** The two files of [TestTailLastLines], ["one\ntwo\nthree\nfour\n"]
    and ["one\ntwo\nthree"]. *)
Definition four_lines : list byte :=
  list_byte_of_string "one" ++ [LF] ++ list_byte_of_string "two" ++ [LF]
  ++ list_byte_of_string "three" ++ [LF] ++ list_byte_of_string "four" ++ [LF].

Definition three_lines_open : list byte :=
  list_byte_of_string "one" ++ [LF] ++ list_byte_of_string "two" ++ [LF]
  ++ list_byte_of_string "three".

(** The state after the first read of [TestReadFromOffsetPartialUpdate]:
    ["hello"] is held and displayed. *)
Definition hello_held : fileState :=
  {| offset := 5; partial := list_byte_of_string "hello"; partialDisplayed := true |}.

Definition hello_world : list byte := list_byte_of_string "hello world" ++ [LF].

(** Patterns without metacharacters, as [compilePatterns] returns
    them for ["app.log"], ["logs/app.log"] and ["re:logs/app.log"]. *)
Definition glob_app_log : pattern :=
  {| raw := "app.log"; kind := patternGlob; glob := "app.log"; re := None;
     pathPattern := false |}.

Definition glob_logs_app_log : pattern :=
  {| raw := "logs/app.log"; kind := patternGlob; glob := "logs/app.log"; re := None;
     pathPattern := true |}.

Definition regex_logs_app_log : pattern :=
  {| raw := "re:logs/app.log"; kind := patternRegex; glob := "";
     re := Some "logs/app.log"; pathPattern := false |}.

(** A watched directory with one tracked file in it and one beside it,
    as in [TestScanPrunesDeletedDirs]. *)
Definition logs_watched : Tailer :=
  {| watcher := {[ "/tmp/logs" ]};
     states := {[ "/tmp/logs/app.log" := fileState_zero;
                  "/tmp/root.log" := fileState_zero ]};
     watchedDir := {[ "/tmp/logs" ]} |}.

(** ** The rest of the engine and its consumer *)

(** The texts of the events of [evs] that are complete lines. *)
Definition completedTexts (evs : list Line) : list string :=
  map Text (List.filter (λ e, negb (Partial e)) evs).

(** The truncation marker of [truncateLineBytes] has twelve bytes. *)
Definition markerLength : nat := String.length " [truncated]".

(** *** The two output queues

    A buffered channel of capacity [cap] is the list of the values in
    it, oldest first; no receiver runs while the engine sends. *)

(** [sendLine]: send if there is room; otherwise take the oldest value
    out, if there is one, and try once more. *)
Definition sendLine (cap : nat) (q : list Line) (line : Line) : list Line :=
  if decide (length q < cap) then q ++ [line]          (* case t.lines <- line *)
  else
    let q := match q with                              (* case <-t.lines *)
             | [] => q
             | _ :: rest => rest
             end in
    if decide (length q < cap) then q ++ [line]        (* case t.lines <- line *)
    else q.

(** [sendErr]: send if there is room, otherwise drop the error. *)
Definition sendErr (cap : nat) (q : list error) (err : error) : list error :=
  if decide (length q < cap) then q ++ [err] else q.

(** A configuration for the seek-tail of the last [n] lines. *)
Definition tail_cfg (n : Z) : Config :=
  {| Root := "/tmp"; N := n; FromStart := false; Absolute := true;
     ForceRegex := false; Recursive := true; MaxLineBytes := defaultMaxLine |}.

(** Three line events of a file [app.log]. *)
Definition three_events : list Line :=
  [plainLine "app.log" "one"; plainLine "app.log" "two"; partialLine "app.log" "thr"].
(** ** Facts about slices and [trimTrailingCR] *)

Lemma trimTrailingCR_nil : trimTrailingCR [] = [].
Proof. reflexivity. Qed.

Lemma trimTrailingCR_snoc_CR (l : list byte) : trimTrailingCR (l ++ [CR]) = l.
Proof.
  unfold trimTrailingCR. rewrite length_app. simpl.
  destruct (decide (length l + 1 = 0)) as [Hz|_]; [lia|].
  replace (length l + 1 - 1) with (length l) by lia.
  rewrite lookup_app_r by lia. rewrite Nat.sub_diag. simpl.
  destruct (decide (Some CR = Some CR)) as [_|Hne]; [|congruence].
  by rewrite take_app_length.
Qed.

Lemma trimTrailingCR_snoc_other (l : list byte) (b : byte) :
  b ≠ CR → trimTrailingCR (l ++ [b]) = l ++ [b].
Proof.
  intros Hb. unfold trimTrailingCR. rewrite length_app. simpl.
  destruct (decide (length l + 1 = 0)) as [Hz|_]; [lia|].
  replace (length l + 1 - 1) with (length l) by lia.
  rewrite lookup_app_r by lia. rewrite Nat.sub_diag. simpl.
  destruct (decide (Some b = Some CR)) as [Heq|_]; [congruence|done].
Qed.

Lemma trimTrailingCR_length_le (l : list byte) :
  length (trimTrailingCR l) ≤ length l.
Proof.
  unfold trimTrailingCR. repeat case_decide; rewrite ?length_take; lia.
Qed.

Lemma trimTrailingCR_no_CR (l : list byte) : CR ∉ l → trimTrailingCR l = l.
Proof.
  intros Hno. destruct l as [|b l'] using rev_ind; [done|].
  apply trimTrailingCR_snoc_other. intros ->. apply Hno.
  rewrite elem_of_app, list_elem_of_singleton. by right.
Qed.

(** ** C1: the round trip of [splitLines] *)

(** [TestSplitLines]: ["a\nb\r\nc"]. *)
Example splitLines_test :
  splitLines [x61; x0a; x62; x0d; x0a; x63] = (["a"; "b"], [x63]).
Proof. reflexivity. Qed.

Lemma splitLines_range_spec (todo done : list byte) (start : nat) (lines : list string) :
  start ≤ length done →
  LF ∉ drop start done →
  ∃ raws start',
    splitLines_range (done ++ todo) (length done) todo start lines
      = (start', lines ++ map (λ l, string_of_list_byte (trimTrailingCR l)) raws)
    ∧ start' ≤ length (done ++ todo)
    ∧ joinLines raws (drop start' (done ++ todo)) = drop start (done ++ todo)
    ∧ Forall (λ l, LF ∉ l) raws
    ∧ (LF ∉ drop start' (done ++ todo)).
Proof.
  revert done start lines.
  induction todo as [|b todo IH]; intros done start lines Hle Hno.
  - exists [], start. rewrite app_nil_r. simpl. rewrite app_nil_r.
    repeat split; auto.
  - simpl. destruct (decide (b = LF)) as [->|Hb].
    + destruct (IH (done ++ [LF]) (S (length done))
                  (lines ++ [string_of_list_byte
                               (trimTrailingCR (slice (done ++ LF :: todo) start (length done)))]))
        as (raws & start' & Hrun & Hle' & Hjoin & Hall & Hrest).
      { rewrite length_app. simpl. lia. }
      { rewrite drop_ge; [apply not_elem_of_nil|]. rewrite length_app. simpl. lia. }
      assert (Hslice : slice (done ++ LF :: todo) start (length done) = drop start done).
      { unfold slice. rewrite drop_app_le by lia.
        rewrite take_app_le by (rewrite length_drop; lia).
        apply take_ge. rewrite length_drop. lia. }
      rewrite Hslice in Hrun |- *.
      replace (length (done ++ [LF])) with (S (length done)) in Hrun
        by (rewrite length_app; simpl; lia).
      rewrite <- app_assoc in Hrun, Hle', Hjoin, Hrest. simpl in *.
      exists (drop start done :: raws), start'.
      rewrite Hrun, <- app_assoc. simpl.
      repeat split; auto.
      unfold joinLines in *. simpl. rewrite <- !app_assoc, Hjoin.
      rewrite (drop_app_le done (LF :: todo) start) by lia. f_equal.
      change (LF :: todo) with ([LF] ++ todo). rewrite app_assoc. f_equal.
      rewrite drop_app_length'; [done|]. rewrite length_app. simpl. lia.
    + destruct (IH (done ++ [b]) start lines)
        as (raws & start' & Hrun & Hle' & Hjoin & Hall & Hrest).
      { rewrite length_app. simpl. lia. }
      { rewrite drop_app_le by lia. rewrite elem_of_app, list_elem_of_singleton.
        intros [Hin|Heq]; [by apply Hno | by subst]. }
      replace (length (done ++ [b])) with (S (length done)) in Hrun
        by (rewrite length_app; simpl; lia).
      rewrite <- app_assoc in Hrun, Hle', Hjoin, Hrest. simpl in *.
      exists raws, start'. repeat split; auto.
Qed.

Lemma splitLines_decompose (data : list byte) :
  ∃ (raws : list (list byte)) (rest : list byte),
    joinLines raws rest = data
    ∧ Forall (λ l, LF ∉ l) raws
    ∧ (LF ∉ rest)
    ∧ splitLines data
        = (map (λ l, string_of_list_byte (trimTrailingCR l)) raws,
           trimTrailingCR rest).
Proof.
  unfold splitLines. destruct (decide (length data = 0)) as [Hz|Hnz].
  - apply length_zero_iff_nil in Hz. subst data.
    exists [], []. repeat split; auto. apply not_elem_of_nil.
  - destruct (splitLines_range_spec data [] 0 [])
      as (raws & start & Hrun & Hle & Hjoin & Hall & Hrest);
      [simpl; lia | apply not_elem_of_nil |].
    simpl in *. rewrite Hrun.
    exists raws, (drop start data). repeat split; auto.
    destruct (decide (start < length data)) as [Hlt|Hge]; [done|].
    rewrite drop_ge by lia. done.
Qed.

Lemma joinLines_trim_no_CR (raws : list (list byte)) (rest : list byte) :
  CR ∉ joinLines raws rest →
  joinLines (map trimTrailingCR raws) (trimTrailingCR rest) = joinLines raws rest.
Proof.
  unfold joinLines. induction raws as [|l raws IH]; simpl; intros Hno.
  - apply trimTrailingCR_no_CR. done.
  - rewrite <- !app_assoc in *. rewrite !elem_of_app in Hno.
    rewrite trimTrailingCR_no_CR by tauto.
    f_equal. f_equal. apply IH. rewrite elem_of_app. tauto.
Qed.

Lemma trimTrailingCR_strips (l : list byte) : stripsOneCR l (trimTrailingCR l).
Proof.
  unfold stripsOneCR. destruct l as [|b l' _] using rev_ind.
  - right. by split.
  - destruct (decide (b = CR)) as [->|Hb].
    + left. by rewrite trimTrailingCR_snoc_CR.
    + right. rewrite trimTrailingCR_snoc_other by done. split; [done|].
      rewrite last_snoc. congruence.
Qed.

(** Only one carriage return is stripped: ["a\nb\r\r\nc\r"] gives
    the lines ["a"] and ["b\r"] and the partial ["c"]. *)
Example splitLines_one_CR :
  splitLines [x61; LF; x62; CR; CR; LF; x63; CR]
    = ([string_of_list_byte [x61]; string_of_list_byte [x62; CR]], [x63]).
Proof. reflexivity. Qed.

(** C1.  Every input of [splitLines] is a sequence of terminator-free
    pieces, each followed by a line terminator, and a terminator-free
    rest; the returned lines are, one for one and in order, those
    pieces, and the returned partial is that rest, each with a single
    trailing carriage return stripped ([stripsOneCR]: a piece that ends
    in a carriage return loses exactly that one byte, any other piece
    is returned as it is).  So re-joining the returned lines with the
    terminators and the partial gives back the input up to those
    stripped carriage returns, and gives back the input itself when it
    has no carriage return. *)
Theorem splitLines_round_trip (data : list byte) :
  (∃ (raws : list (list byte)) (rest : list byte),
     joinLines raws rest = data
     ∧ Forall (λ l, LF ∉ l) raws
     ∧ (LF ∉ rest)
     ∧ Forall2 (λ raw line, stripsOneCR raw (list_byte_of_string line))
               raws (fst (splitLines data))
     ∧ stripsOneCR rest (snd (splitLines data)))
  ∧ (CR ∉ data →
     joinLines (map list_byte_of_string (fst (splitLines data)))
               (snd (splitLines data)) = data).
Proof.
  destruct (splitLines_decompose data) as (raws & rest & Hjoin & Hall & Hrest & Hsplit).
  split.
  - exists raws, rest. rewrite Hsplit. cbn [fst snd].
    split; [done|]. split; [done|]. split; [done|].
    split; [|apply trimTrailingCR_strips].
    apply Forall2_fmap_r, Forall_Forall2_diag, Forall_forall.
    intros l _. unfold compose. rewrite list_byte_of_string_of_list_byte.
    apply trimTrailingCR_strips.
  - intros Hno. rewrite Hsplit. simpl. rewrite map_map.
    rewrite (map_ext _ trimTrailingCR)
      by (intros l; apply list_byte_of_string_of_list_byte).
    rewrite <- Hjoin in Hno |- *. by apply joinLines_trim_no_CR.
Qed.

(** ["a\nb\nc"] has no carriage return: the lines ["a"], ["b"] and the
    partial ["c"] give it back. *)
Lemma splitLines_round_trip_witness :
  joinLines (map list_byte_of_string (fst (splitLines [x61; LF; x62; LF; x63])))
            (snd (splitLines [x61; LF; x62; LF; x63]))
    = [x61; LF; x62; LF; x63].
Proof.
  apply (proj2 (splitLines_round_trip [x61; LF; x62; LF; x63])).
  intros Hin.
  repeat (apply elem_of_cons in Hin as [Hin|Hin]; [discriminate Hin|]).
  by apply elem_of_nil in Hin.
Defined.

(** ** Facts about [len], [IndexByte] and [CountByte] *)

Lemma len_nonneg {A} (l : list A) : (0 ≤ len l)%Z.
Proof. unfold len. lia. Qed.

Lemma len_app {A} (l k : list A) : len (l ++ k) = (len l + len k)%Z.
Proof. unfold len. rewrite length_app. lia. Qed.

Lemma len_nil_iff {A} (l : list A) : (len l >? 0)%Z = false ↔ l = [].
Proof.
  unfold len. destruct l; simpl; split; intros Hl; try done.
Qed.

Lemma IndexByte_notin (l : list byte) (c : byte) : c ∉ l → IndexByte l c = (-1)%Z.
Proof.
  induction l as [|b l IH]; intros Hno; [done|]. simpl.
  destruct (decide (b = c)) as [->|_]; [exfalso; apply Hno; by left|].
  rewrite IH by (intros Hin; apply Hno; by right). done.
Qed.

Lemma IndexByte_first (l rest : list byte) (c : byte) :
  c ∉ l → IndexByte (l ++ c :: rest) c = len l.
Proof.
  induction l as [|b l IH]; intros Hno; simpl.
  - by rewrite decide_True.
  - destruct (decide (b = c)) as [->|_]; [exfalso; apply Hno; by left|].
    rewrite IH by (intros Hin; apply Hno; by right).
    pose proof (len_nonneg l).
    destruct (len l <? 0)%Z eqn:Hneg; [apply Z.ltb_lt in Hneg; lia|].
    unfold len. simpl length. lia.
Qed.

Lemma IndexByte_elem (l : list byte) (c : byte) :
  (IndexByte l c >=? 0)%Z = bool_decide (c ∈ l).
Proof.
  destruct (decide (c ∈ l)) as [Hin|Hno].
  - rewrite bool_decide_eq_true_2 by done.
    apply list_elem_of_split in Hin as (l1 & l2 & ->).
    revert l2. induction l1 as [|b l1 IH]; intros l2; simpl.
    + by rewrite decide_True.
    + destruct (decide (b = c)); [done|]. specialize (IH l2).
      apply Z.geb_le in IH.
      destruct (IndexByte (l1 ++ c :: l2) c <? 0)%Z eqn:Hneg;
        [apply Z.ltb_lt in Hneg; lia|].
      apply Z.geb_le. lia.
  - rewrite bool_decide_eq_false_2 by done. by rewrite IndexByte_notin.
Qed.


(** ** C2: the seek-tail of the last [n] lines *)

Lemma CountByte_app (a b : list byte) (c : byte) :
  CountByte (a ++ b) c = (CountByte a c + CountByte b c)%Z.
Proof. induction a as [|x a IH]; simpl; [done|]. rewrite IH. lia. Qed.

Lemma pieces_noLF (rest : list byte) : LF ∉ rest → pieces rest = ([], rest).
Proof.
  induction rest as [|b rest IH]; intros Hno; [done|].
  simpl. rewrite IH by (intros Hin; apply Hno; by right).
  destruct (decide (b = LF)) as [->|_]; [|done].
  exfalso. apply Hno. by left.
Qed.

Lemma pieces_app_LF (l rest : list byte) :
  LF ∉ l → pieces (l ++ LF :: rest) = (l :: fst (pieces rest), snd (pieces rest)).
Proof.
  induction l as [|b l IH]; intros Hno; simpl.
  - destruct (pieces rest) as [ls r]. simpl.
    destruct (decide (LF = LF)); [done|congruence].
  - rewrite IH by (intros Hin; apply Hno; by right).
    destruct (decide (b = LF)) as [->|_]; [|done].
    exfalso. apply Hno. by left.
Qed.

Lemma pieces_joinLines (raws : list (list byte)) (rest : list byte) :
  Forall (λ l, LF ∉ l) raws → LF ∉ rest →
  pieces (joinLines raws rest) = (raws, rest).
Proof.
  intros Hall Hrest. unfold joinLines.
  induction Hall as [|l raws Hl Hall IH]; simpl.
  - by apply pieces_noLF.
  - rewrite <- !app_assoc. simpl. rewrite pieces_app_LF by done.
    by rewrite IH.
Qed.

(** [splitLines] computes the pieces, each with a carriage return
    stripped. *)
Lemma splitLines_pieces (data : list byte) :
  splitLines data = (completeLines data, trimTrailingCR (fragment data)).
Proof.
  destruct (splitLines_decompose data) as (raws & rest & Hjoin & Hall & Hrest & ->).
  unfold completeLines, fragment.
  rewrite <- Hjoin, pieces_joinLines by done. done.
Qed.

Lemma pieces_length (data : list byte) :
  len (fst (pieces data)) = CountByte data LF.
Proof.
  induction data as [|b data IH]; simpl; [done|].
  destruct (pieces data) as [ls r]. simpl in IH.
  destruct (decide (b = LF)) as [->|Hb].
  - simpl. unfold len in *. simpl. lia.
  - destruct ls as [|l ls']; simpl in *; unfold len in *; simpl in *; lia.
Qed.

(** Reading a file from a later position on changes only the first
    piece that is seen. *)
Lemma pieces_suffix (pre data l0 : list byte) (Lt : list (list byte)) (pd : list byte) :
  pieces data = (l0 :: Lt, pd) →
  ∃ X, pieces (pre ++ data) = (X ++ Lt, pd) ∧ X ≠ [].
Proof.
  intros Hd. induction pre as [|b pre IH]; simpl.
  - exists [l0]. by rewrite Hd.
  - destruct IH as (X & -> & HX).
    destruct (decide (b = LF)) as [->|Hb].
    + by exists ([] :: X).
    + destruct X as [|x X']; [done|]. simpl. by exists ((b :: x) :: X').
Qed.

Lemma fragment_endsWithLF (file : list byte) : endsWithLF file → fragment file = [].
Proof.
  unfold endsWithLF, fragment. intros Hlast.
  destruct file as [|b l'] using rev_ind; [done|].
  rewrite last_snoc in Hlast. injection Hlast as ->.
  clear IHl'. induction l' as [|c l IH]; simpl; [done|].
  destruct (pieces (l ++ [LF])) as [ls r] eqn:Hp. simpl in IH. subst r.
  destruct (decide (c = LF)); [done|].
  destruct ls as [|x ls']; [|done].
  exfalso. pose proof (pieces_length (l ++ [LF])) as Hlen.
  rewrite Hp, CountByte_app in Hlen. simpl in Hlen.
  assert (0 ≤ CountByte l LF)%Z by (rewrite <- pieces_length; apply len_nonneg).
  unfold len in Hlen. simpl in Hlen. destruct (decide (LF = LF)); [lia|congruence].
Qed.

Lemma fragment_nil (file : list byte) :
  fragment file = [] → file = [] ∨ endsWithLF file.
Proof.
  unfold fragment, endsWithLF. induction file as [|b file IH]; [by left|].
  intros Hf. right. simpl in Hf.
  destruct (pieces file) as [ls r] eqn:Hp. simpl in IH.
  destruct (decide (b = LF)) as [->|Hb]; simpl in Hf.
  - destruct (IH Hf) as [->|Hl]; [done|].
    destruct file; [done|]. by rewrite last_cons, Hl.
  - destruct ls as [|l ls']; [done|]. simpl in Hf.
    destruct (IH Hf) as [->|Hl]; [done|].
    destruct file; [done|]. by rewrite last_cons, Hl.
Qed.

Lemma lastLines_all {A} (k : Z) (l : list A) : (len l ≤ k)%Z → lastLines k l = l.
Proof.
  intros Hk. unfold lastLines.
  replace (Z.to_nat (len l - k)) with 0 by lia. done.
Qed.

Lemma lastLines_app {A} (k : Z) (X Lt : list A) :
  (0 ≤ k ≤ len Lt)%Z → lastLines k (X ++ Lt) = lastLines k Lt.
Proof.
  intros Hk. unfold lastLines. rewrite len_app. unfold len in *.
  rewrite drop_app_ge by lia. f_equal. lia.
Qed.

Lemma lastLines_map {A B} (f : A → B) (k : Z) (l : list A) :
  lastLines k (map f l) = map f (lastLines k l).
Proof.
  unfold lastLines, len. rewrite length_map.
  by rewrite <- !fmap_drop.
Qed.

(** The code guards the re-slicing with a length test; the guard does
    not change the result. *)
Lemma lastLines_guard {A} (k : Z) (l : list A) :
  (if (len l >? k)%Z then lastLines k l else l) = lastLines k l.
Proof.
  destruct (len l >? k)%Z eqn:Hg; [done|].
  symmetry. apply lastLines_all. rewrite Z.gtb_ltb in Hg; apply Z.ltb_ge in Hg. lia.
Qed.

(** The backward loop stops with the bytes from some position [r] to the
    end of the file in hand, and either [r] is the start of the file or
    more than [n] terminators were seen. *)
Lemma tailLoop_spec (fuel : nat) (file : list byte) (n remaining lineCount : Z)
    (chunks : list (list byte)) :
  (0 ≤ remaining ≤ len file)%Z →
  Z.to_nat remaining ≤ fuel →
  concat (reverse chunks) = drop (Z.to_nat remaining) file →
  lineCount = CountByte (drop (Z.to_nat remaining) file) LF →
  ∃ r : Z,
    (0 ≤ r ≤ len file)%Z
    ∧ concat (reverse (tailLoop fuel file n remaining lineCount chunks))
        = drop (Z.to_nat r) file
    ∧ (r = 0%Z ∨ (CountByte (drop (Z.to_nat r) file) LF > n)%Z).
Proof.
  revert remaining lineCount chunks.
  induction fuel as [|fuel IH]; intros remaining lineCount chunks Hr Hfuel Hcat Hcnt.
  - exists remaining. simpl. split; [lia|]. split; [done|]. left. lia.
  - cbn [tailLoop]. destruct ((remaining >? 0)%Z && (lineCount <=? n)%Z) eqn:Hcond.
    + apply andb_true_iff in Hcond as [Hpos Hle].
      apply Z.gtb_lt in Hpos.
      set (readSize := if (remaining <? readChunkSize)%Z then remaining else readChunkSize).
      assert (Hrs : (0 < readSize ≤ remaining)%Z).
      { unfold readSize, readChunkSize.
        destruct (remaining <? 4096)%Z eqn:Hlt; [lia|].
        apply Z.ltb_ge in Hlt. lia. }
      assert (Hbuf : slice file (Z.to_nat (remaining - readSize))
                       (Z.to_nat (remaining - readSize + readSize))
                     ++ drop (Z.to_nat remaining) file
                     = drop (Z.to_nat (remaining - readSize)) file).
      { unfold slice.
        replace (Z.to_nat (remaining - readSize + readSize)
                 - Z.to_nat (remaining - readSize)) with (Z.to_nat readSize) by lia.
        replace (Z.to_nat remaining)
          with (Z.to_nat (remaining - readSize) + Z.to_nat readSize) by lia.
        rewrite <- drop_drop. apply take_drop. }
      apply IH.
      * lia.
      * lia.
      * rewrite reverse_snoc. simpl. rewrite Hcat. exact Hbuf.
      * rewrite Hcnt, Z.add_comm, <- CountByte_app, Hbuf. done.
    + exists remaining. split; [lia|]. split; [done|].
      apply andb_false_iff in Hcond as [Hz|Hgt].
      * left. rewrite Z.gtb_ltb in Hz; apply Z.ltb_ge in Hz. lia.
      * right. apply Z.leb_gt in Hgt. lia.
Qed.

(** With the file read back to position [r], the lines that
    [tailLastLines] keeps are those of the whole file. *)
Lemma suffix_lastLines (file : list byte) (r k n : Z) :
  (0 ≤ r ≤ len file)%Z →
  (r = 0%Z ∨ (CountByte (drop (Z.to_nat r) file) LF > n)%Z) →
  (0 ≤ k ≤ n)%Z →
  lastLines k (completeLines (drop (Z.to_nat r) file)) = lastLines k (completeLines file)
  ∧ fragment (drop (Z.to_nat r) file) = fragment file.
Proof.
  intros Hr [->|Hcnt] Hk; [done|].
  rewrite <- pieces_length in Hcnt.
  unfold completeLines, fragment. rewrite !lastLines_map.
  destruct (pieces (drop (Z.to_nat r) file)) as [[|l0 Lt] pd] eqn:Hp.
  { simpl in Hcnt. unfold len in Hcnt. simpl in Hcnt. lia. }
  destruct (pieces_suffix (take (Z.to_nat r) file) _ _ _ _ Hp) as (X & HX & _).
  rewrite take_drop in HX. rewrite HX. simpl.
  simpl in Hcnt. unfold len in Hcnt. simpl in Hcnt.
  split; [|done]. f_equal.
  rewrite (lastLines_app k X Lt) by (unfold len; lia).
  apply (lastLines_app k [l0] Lt). unfold len. lia.
Qed.

(** What [tailLastLines] returns for a regular file. *)
Lemma tailLastLines_regular (fs : gmap string node) (path : string)
    (file : list byte) (n : Z) :
  fs !! path = Some (Regular file) →
  (n > 0)%Z →
  tailLastLines fs path n =
    if decide (trimTrailingCR (fragment file) = [])
    then (lastLines n (completeLines file), [], None)
    else (lastLines (n - 1) (completeLines file), trimTrailingCR (fragment file), None).
Proof.
  intros Hfs Hn. unfold tailLastLines. rewrite Hfs.
  destruct (n <=? 0)%Z eqn:Hn0; [apply Z.leb_le in Hn0; lia|].
  destruct (len file =? 0)%Z eqn:Hempty.
  { apply Z.eqb_eq in Hempty. unfold len in Hempty.
    destruct file; [|simpl in Hempty; lia].
    unfold fragment, completeLines. simpl.
    unfold lastLines. by rewrite drop_nil. }
  destruct (tailLoop_spec (length file) file n (len file) 0 [])
    as (r & Hr & Hdata & Hstop).
  - pose proof (len_nonneg file). lia.
  - unfold len. lia.
  - unfold len. rewrite Nat2Z.id, drop_all. done.
  - unfold len. rewrite Nat2Z.id, drop_all. done.
  - rewrite Hdata, splitLines_pieces.
    destruct (suffix_lastLines file r n n Hr Hstop) as [Hn_lines Hfrag]; [lia|].
    destruct (suffix_lastLines file r (n - 1) n Hr Hstop) as [Hn1_lines _]; [lia|].
    rewrite Hfrag, !lastLines_guard, Hn_lines, Hn1_lines.
    destruct (decide (trimTrailingCR (fragment file) = [])) as [Hnil|Hnn].
    + rewrite Hnil. done.
    + destruct (len (trimTrailingCR (fragment file)) >? 0)%Z eqn:Hl; [done|].
      by apply len_nil_iff in Hl.
Qed.

Lemma trimTrailingCR_nil_inv (l : list byte) :
  trimTrailingCR l = [] → l = [] ∨ l = [CR].
Proof.
  destruct l as [|b l' _] using rev_ind; [by left|].
  destruct (decide (b = CR)) as [->|Hb].
  - rewrite trimTrailingCR_snoc_CR. intros ->. by right.
  - rewrite trimTrailingCR_snoc_other by done. intros Hnil.
    by apply app_nil in Hnil as [_ ?].
Qed.

(** C2, as the code has it.  For a regular file and [n > 0]: if the content ends
    with a line terminator, [tailLastLines] returns the last [n] complete
    lines (all of them if there are fewer) and no partial; if it does not,
    and what follows the last terminator is not just one carriage return,
    it returns the last [n-1] complete lines and, as the partial, the
    final unterminated fragment with one trailing carriage return
    stripped. *)
Theorem tailLastLines_last_lines (fs : gmap string node) (path : string)
    (file : list byte) (n : Z) :
  fs !! path = Some (Regular file) →
  (n > 0)%Z →
  (endsWithLF file →
     tailLastLines fs path n = (lastLines n (completeLines file), [], None))
  ∧ (¬ endsWithLF file → fragment file ≠ [CR] →
     tailLastLines fs path n
       = (lastLines (n - 1) (completeLines file),
          trimTrailingCR (fragment file), None)).
Proof.
  intros Hfs Hn. rewrite (tailLastLines_regular fs path file n Hfs Hn). split.
  - intros Hend. rewrite (fragment_endsWithLF file Hend). done.
  - intros Hend Hcr.
    destruct (decide (trimTrailingCR (fragment file) = [])) as [Hnil|Hnn]; [|done].
    rewrite Hnil.
    destruct (trimTrailingCR_nil_inv _ Hnil) as [Hf|Hf]; [|done].
    destruct (fragment_nil file Hf) as [->|Hl]; [|done].
    unfold completeLines, lastLines. simpl. by rewrite !drop_nil.
Qed.

Lemma tailLastLines_last_lines_witness :
  tailLastLines {[ "sample.log" := Regular four_lines ]} "sample.log" 2
    = (["three"; "four"], [], None)
  ∧ tailLastLines {[ "sample.log" := Regular three_lines_open ]} "sample.log" 2
    = (["two"], list_byte_of_string "three", None).
Proof.
  split.
  - destruct (tailLastLines_last_lines
                {[ "sample.log" := Regular four_lines ]} "sample.log" four_lines 2)
      as [Hend _]; [apply lookup_singleton_eq | lia |].
    rewrite Hend; reflexivity.
  - destruct (tailLastLines_last_lines
                {[ "sample.log" := Regular three_lines_open ]} "sample.log"
                three_lines_open 2)
      as [_ Hopen]; [apply lookup_singleton_eq | lia |].
    rewrite Hopen; [reflexivity | vm_compute; congruence | vm_compute; congruence].
Defined.

(** C2 as stated fails on ["a\n\r"] with [n = 1]: the content does not
    end with a terminator, yet [tailLastLines] returns the complete line
    ["a"] and no partial, not the last [n-1 = 0] lines and a partial. *)
Lemma tailLastLines_lone_CR_counterexample :
  let file := [x61; LF; CR] in
  let got := tailLastLines {[ "sample.log" := Regular file ]} "sample.log" 1 in
  ¬ endsWithLF file
  ∧ fragment file = [CR]
  ∧ got = (["a"], [], None)
  ∧ got ≠ (lastLines (1 - 1) (completeLines file), fragment file, None)
  ∧ got ≠ (lastLines (1 - 1) (completeLines file), trimTrailingCR (fragment file), None).
Proof.
  vm_compute. repeat split; congruence.
Qed.

(** ** The loops end before their fuel does *)

Lemma tailLoop_fuel (fuel1 fuel2 : nat) (file : list byte) (n remaining lineCount : Z)
    (chunks : list (list byte)) :
  Z.to_nat remaining ≤ fuel1 → Z.to_nat remaining ≤ fuel2 →
  tailLoop fuel1 file n remaining lineCount chunks
    = tailLoop fuel2 file n remaining lineCount chunks.
Proof.
  revert fuel2 remaining lineCount chunks.
  induction fuel1 as [|fuel1 IH]; intros fuel2 remaining lineCount chunks H1 H2.
  - destruct fuel2 as [|fuel2]; [done|]. cbn [tailLoop].
    destruct (remaining >? 0)%Z eqn:Hpos; [apply Z.gtb_lt in Hpos; lia|done].
  - destruct fuel2 as [|fuel2]; cbn [tailLoop].
    + destruct (remaining >? 0)%Z eqn:Hpos; [apply Z.gtb_lt in Hpos; lia|done].
    + destruct ((remaining >? 0)%Z && (lineCount <=? n)%Z) eqn:Hcond; [|done].
      apply andb_true_iff in Hcond as [Hpos _]. apply Z.gtb_lt in Hpos.
      cbv zeta. unfold readChunkSize.
      destruct (remaining <? 4096)%Z eqn:Hlt.
      * apply IH; lia.
      * apply Z.ltb_ge in Hlt. apply IH; lia.
Qed.

Section Fuel.
Variable pathDisplay : string.
Variable hadPartial : bool.
Variable maxBytes : Z.

Lemma scanChunk_fuel (fuel1 fuel2 : nat) (data : list byte) (v : readLoop_vars) :
  length data ≤ fuel1 → length data ≤ fuel2 →
  scanChunk pathDisplay hadPartial maxBytes fuel1 data v
    = scanChunk pathDisplay hadPartial maxBytes fuel2 data v.
Proof.
  revert fuel2 data v.
  induction fuel1 as [|fuel1 IH]; intros fuel2 data v H1 H2.
  - destruct data; [|simpl in H1; lia]. by destruct fuel2.
  - destruct fuel2 as [|fuel2].
    { destruct data; [done|simpl in H2; lia]. }
    cbn [scanChunk].
    destruct (len data >? 0)%Z; [|done].
    destruct (IndexByte data LF <? 0)%Z eqn:Hidx; [done|].
    apply Z.ltb_ge in Hidx.
    destruct (truncateLineBytes _ maxBytes) as [text trunc].
    apply IH; rewrite length_drop; lia.
Qed.

Lemma readLoop_fuel (fuel1 fuel2 : nat) (file : list byte) (pos : nat)
    (v : readLoop_vars) :
  length file - pos < fuel1 → length file - pos < fuel2 →
  readLoop pathDisplay hadPartial maxBytes fuel1 file pos v
    = readLoop pathDisplay hadPartial maxBytes fuel2 file pos v.
Proof.
  revert fuel2 pos v.
  induction fuel1 as [|fuel1 IH]; intros fuel2 pos v H1 H2; [lia|].
  destruct fuel2 as [|fuel2]; [lia|].
  cbn [readLoop]. cbv zeta.
  set (data := take (Z.to_nat readChunkSize) (drop pos file)).
  destruct (len data >? 0)%Z eqn:Hlen; [|done].
  assert (Hpos : 0 < length data ≤ length file - pos).
  { apply Z.gtb_lt in Hlen. unfold len in Hlen. split; [lia|].
    unfold data. rewrite length_take, length_drop. lia. }
  apply IH; lia.
Qed.
End Fuel.

(** ** C3: the update flag of an incremental read *)

Section UpdateFlag.
Variable pathDisplay : string.
Variable hadPartial : bool.
Variable maxBytes : Z.

Lemma emit_flags_ok (text : string) (isPartial : bool) (v : readLoop_vars)
    (newCarry : list byte) :
  flags_ok hadPartial v →
  flags_ok hadPartial (emit pathDisplay hadPartial text isPartial v newCarry).
Proof.
  intros [Hupd Hflags Hcarry]. split; simpl.
  - rewrite Hupd. destruct hadPartial, (sent v); done.
  - intros i e Hi. apply lookup_app_Some in Hi as [Hi|[Hlen Hi]].
    + by apply Hflags.
    + apply list_lookup_singleton_Some in Hi as [Hz <-]. simpl.
      rewrite Hupd. destruct hadPartial; [|done]. simpl.
      destruct (sent v) as [|x l]; simpl in *.
      * replace i with 0 by lia. done.
      * rewrite bool_decide_eq_false_2 by lia. done.
  - intros _ Hnil. by apply app_nil in Hnil as [_ ?].
Qed.

Lemma set_carry_flags_ok (v : readLoop_vars) (c : list byte) :
  c ≠ [] → flags_ok hadPartial v → flags_ok hadPartial (set_carry v c).
Proof. intros Hc [Hupd Hflags Hcarry]. split; simpl; auto. Qed.

Lemma scanChunk_flags_ok (fuel : nat) (data : list byte) (v : readLoop_vars) :
  flags_ok hadPartial v →
  flags_ok hadPartial (scanChunk pathDisplay hadPartial maxBytes fuel data v).
Proof.
  revert data v. induction fuel as [|fuel IH]; intros data v Hv; [done|].
  cbn [scanChunk].
  destruct (len data >? 0)%Z eqn:Hlen; [|done].
  assert (Hne : carry v ++ data ≠ []).
  { intros Hnil. apply app_nil in Hnil as [_ ->]. done. }
  destruct (IndexByte data LF <? 0)%Z.
  - destruct ((maxBytes >? 0)%Z && (len (carry v ++ data) >? maxBytes)%Z).
    + destruct (truncateLineBytes (carry v ++ data) maxBytes) as [text [|]].
      * by apply emit_flags_ok.
      * by apply set_carry_flags_ok.
    + by apply set_carry_flags_ok.
  - destruct (truncateLineBytes _ maxBytes) as [text trunc].
    apply IH. by apply emit_flags_ok.
Qed.

Lemma readLoop_flags_ok (fuel : nat) (file : list byte) (pos : nat)
    (v : readLoop_vars) :
  flags_ok hadPartial v →
  flags_ok hadPartial (readLoop pathDisplay hadPartial maxBytes fuel file pos v).
Proof.
  revert pos v. induction fuel as [|fuel IH]; intros pos v Hv; [done|].
  cbn [readLoop]. cbv zeta.
  destruct (len (take (Z.to_nat readChunkSize) (drop pos file)) >? 0)%Z.
  - apply IH, scanChunk_flags_ok. destruct Hv. by split.
  - destruct Hv. by split.
Qed.
End UpdateFlag.

Section ReaderFacts.
Context `{GoStdlib}.
Variable cfg : Config.

(** The flags of the events of one call, for either value of
    [includeExistingPartial]. *)
Lemma readFromOffset_flags (fs : gmap string node) (path : string)
    (state : fileState) (offset0 : Z) (inc : bool) :
  let hadPartial := partialDisplayed state && inc && (len (partial state) >? 0)%Z in
  let r := readFromOffset cfg fs path state offset0 inc in
  (∀ i e, r_sent r !! i = Some e → Update e = hadPartial && bool_decide (i = 0))
  ∧ (hadPartial = true → r_err r = None → r_sent r ≠ []).
Proof.
  intros hadPartial r. subst r. unfold readFromOffset.
  destruct (fs !! path) as [nd|]; [|by split].
  destruct (offset0 <? 0)%Z; [by split|].
  destruct nd as [file|size]; [|by split].
  fold hadPartial.
  set (v0 := {| carry := _; updatedPartial := false; totalRead := 0;
                sent := []; ops := _ |}).
  assert (Hv0 : flags_ok hadPartial v0).
  { split; simpl.
    - by rewrite andb_false_r.
    - intros i e Hi. done.
    - intros Hhad _. unfold hadPartial in Hhad.
      apply andb_true_iff in Hhad as [Hhad Hlen].
      apply andb_true_iff in Hhad as [_ ->]. rewrite Hlen. simpl.
      intros Hnil. rewrite Hnil in Hlen. done. }
  pose proof (readLoop_flags_ok (displayPath cfg path) hadPartial (MaxLineBytes cfg)
                (S (length file)) file (Z.to_nat offset0) v0 Hv0) as Hv.
  set (v := readLoop _ _ _ _ _ _ v0) in *.
  destruct (len (carry v) >? 0)%Z eqn:Hcarry.
  - destruct (truncateLineBytes _ _) as [text trunc].
    pose proof (emit_flags_ok (displayPath cfg path) hadPartial text (negb trunc)
                  v (carry v) Hv) as [_ Hflags _].
    split; [exact Hflags|]. simpl. intros _ _ Hnil.
    by apply app_nil in Hnil as [_ ?].
  - simpl. destruct Hv as [_ Hflags Hc]. split; [exact Hflags|].
    intros Hhad _ Hnil. apply (Hc Hhad) in Hnil.
    by apply len_nil_iff in Hcarry.
Qed.

(** C3.  In a call of [readFromOffset] with [includeExistingPartial]
    set: if a displayed, non-empty partial is held, the first event
    the call sends carries the update flag and no later event of the
    call does (and a call that returns without error sends at least
    one event); if no such partial is held, no event of the call
    carries the flag. *)
Theorem readFromOffset_update_flag (fs : gmap string node) (path : string)
    (state : fileState) (offset0 : Z) :
  let r := readFromOffset cfg fs path state offset0 true in
  (partialDisplayed state = true → partial state ≠ [] →
     (∀ i e, r_sent r !! i = Some e → Update e = bool_decide (i = 0))
     ∧ (r_err r = None → r_sent r ≠ []))
  ∧ (partialDisplayed state = false ∨ partial state = [] →
     ∀ e, e ∈ r_sent r → Update e = false).
Proof.
  intros r.
  destruct (readFromOffset_flags fs path state offset0 true) as [Hflags Hsome].
  fold r in Hflags, Hsome. split.
  - intros Hdisp Hpart.
    assert (Hhad : partialDisplayed state && true && (len (partial state) >? 0)%Z = true).
    { rewrite Hdisp. simpl. destruct (len (partial state) >? 0)%Z eqn:Hl; [done|].
      by apply len_nil_iff in Hl. }
    rewrite Hhad in Hflags. split; [exact Hflags | by apply Hsome].
  - intros Hno e He. apply list_elem_of_lookup in He as [i Hi].
    rewrite (Hflags i e Hi).
    destruct Hno as [-> | ->]; [done|]. by rewrite andb_false_r.
Qed.
End ReaderFacts.

(** ** What a read sends when no line reaches the byte ceiling *)

Lemma pieces_sound (data : list byte) :
  joinLines (fst (pieces data)) (snd (pieces data)) = data
  ∧ Forall (λ l, LF ∉ l) (fst (pieces data))
  ∧ (LF ∉ snd (pieces data)).
Proof.
  destruct (splitLines_decompose data) as (raws & rest & Hjoin & Hall & Hrest & _).
  subst data. by rewrite pieces_joinLines.
Qed.

Lemma pieces_joinLines_any (raws : list (list byte)) (rest : list byte) :
  Forall (λ l, LF ∉ l) raws →
  pieces (joinLines raws rest) = (raws ++ fst (pieces rest), snd (pieces rest)).
Proof.
  intros Hall. unfold joinLines.
  induction Hall as [|l raws Hl Hall IH]; simpl.
  - by destruct (pieces rest).
  - rewrite <- !app_assoc. simpl. rewrite pieces_app_LF by done. by rewrite IH.
Qed.

(** Cutting a byte sequence in two: the pieces of the whole are the
    pieces of the first part, then the pieces of what the first part
    left unterminated followed by the second part. *)
Lemma pieces_app (a b : list byte) :
  pieces (a ++ b)
    = (fst (pieces a) ++ fst (pieces (snd (pieces a) ++ b)),
       snd (pieces (snd (pieces a) ++ b))).
Proof.
  destruct (pieces_sound a) as (Hjoin & Hall & _).
  rewrite <- Hjoin at 1. unfold joinLines. rewrite <- app_assoc.
  by apply pieces_joinLines_any.
Qed.

Lemma pieces_fragment_length (data : list byte) :
  (len (snd (pieces data)) ≤ len data)%Z.
Proof.
  destruct (pieces_sound data) as (Hjoin & _ & _).
  rewrite <- Hjoin at 2. unfold joinLines. rewrite len_app.
  pose proof (len_nonneg (concat (map (λ l, l ++ [LF]) (fst (pieces data))))). lia.
Qed.

Section ReaderLines.
Variable pathDisplay : string.
Variable hadPartial : bool.
Variable maxBytes : Z.

Lemma lineEvents_app (k : nat) (a b : list (list byte)) :
  lineEvents pathDisplay hadPartial k (a ++ b)
    = lineEvents pathDisplay hadPartial k a
      ++ lineEvents pathDisplay hadPartial (k + length a) b.
Proof.
  revert k. induction a as [|l a IH]; intros k; simpl.
  - by rewrite Nat.add_0_r.
  - rewrite IH. by replace (S k + length a) with (k + S (length a)) by lia.
Qed.

Lemma emit_sent (text : string) (isPartial : bool) (v : readLoop_vars)
    (newCarry : list byte) :
  flags_ok hadPartial v →
  sent (emit pathDisplay hadPartial text isPartial v newCarry)
    = sent v ++ [event pathDisplay hadPartial (length (sent v)) text isPartial].
Proof.
  intros [Hupd _ _]. unfold emit, event. simpl. rewrite Hupd.
  do 3 f_equal. destruct hadPartial; [|done]. by destruct (sent v).
Qed.

Lemma truncateLineBytes_short (l : list byte) :
  (maxBytes ≤ 0 ∨ len l ≤ maxBytes)%Z →
  truncateLineBytes l maxBytes = (string_of_list_byte l, false).
Proof.
  intros Hshort. unfold truncateLineBytes.
  destruct ((maxBytes >? 0)%Z && (len l >? maxBytes)%Z) eqn:Hc; [|done].
  apply andb_true_iff in Hc as [Hpos Hlong]. apply Z.gtb_lt in Hpos, Hlong. lia.
Qed.

(** One chunk: the lines it completes are sent, what it leaves
    unterminated is carried on.  [length data] turns of fuel are
    enough. *)
Lemma scanChunk_pieces (fuel : nat) (data : list byte) (v : readLoop_vars) :
  flags_ok hadPartial v →
  LF ∉ carry v →
  length data ≤ fuel →
  (maxBytes ≤ 0 ∨ len (carry v) + len data ≤ maxBytes)%Z →
  let v' := scanChunk pathDisplay hadPartial maxBytes fuel data v in
  carry v' = snd (pieces (carry v ++ data))
  ∧ sent v' = sent v ++ lineEvents pathDisplay hadPartial (length (sent v))
                          (fst (pieces (carry v ++ data))).
Proof.
  revert data v. induction fuel as [|fuel IH]; intros data v Hv Hcarry Hfuel Hshort.
  { destruct data; [|simpl in Hfuel; lia]. simpl.
    rewrite !app_nil_r, pieces_noLF by done. simpl. by rewrite app_nil_r. }
  cbn [scanChunk]. cbv zeta.
  destruct (len data >? 0)%Z eqn:Hlen.
  2:{ apply len_nil_iff in Hlen as ->.
      rewrite !app_nil_r, pieces_noLF by done. simpl. by rewrite app_nil_r. }
  destruct (IndexByte data LF <? 0)%Z eqn:Hidx.
  - assert (Hno : LF ∉ data).
    { intros Hin. pose proof (IndexByte_elem data LF) as He.
      rewrite bool_decide_eq_true_2 in He by done.
      apply Z.geb_le in He. apply Z.ltb_lt in Hidx. lia. }
    assert (Hc : ((maxBytes >? 0) && (len (carry v ++ data) >? maxBytes))%Z = false).
    { apply andb_false_iff. rewrite len_app.
      destruct Hshort as [Hoff|Hfit]; [left|right];
        rewrite Z.gtb_ltb; apply Z.ltb_ge; lia. }
    rewrite Hc. simpl. rewrite pieces_noLF.
    + simpl. by rewrite app_nil_r.
    + rewrite elem_of_app. tauto.
  - assert (Hin : LF ∈ data).
    { destruct (decide (LF ∈ data)) as [|Hno]; [done|].
      rewrite IndexByte_notin in Hidx by done. done. }
    apply list_elem_of_split_l in Hin as (l & rest & -> & Hl).
    rewrite IndexByte_first by done.
    replace (Z.to_nat (len l)) with (length l) by (unfold len; lia).
    replace (Z.to_nat (len l + 1)) with (length (l ++ [LF]))
      by (rewrite length_app; unfold len; simpl; lia).
    rewrite take_app_length.
    assert (Hdrop : drop (length (l ++ [LF])) (l ++ LF :: rest) = rest).
    { change (LF :: rest) with ([LF] ++ rest). rewrite app_assoc.
      apply drop_app_length. }
    rewrite Hdrop.
    rewrite !len_app in Hshort. rewrite length_app in Hfuel. simpl in Hfuel.
    assert (Hrest : len (LF :: rest) = (1 + len rest)%Z) by (unfold len; simpl; lia).
    rewrite truncateLineBytes_short.
    2:{ pose proof (trimTrailingCR_length_le (carry v ++ l)) as Htrim.
        pose proof (len_nonneg rest).
        destruct Hshort as [Hoff|Hfit]; [by left|right].
        unfold len in *. rewrite length_app in Htrim. lia. }
    set (v1 := emit _ _ _ false v []).
    destruct (IH rest v1) as [Hcarry' Hsent'].
    + by apply emit_flags_ok.
    + apply not_elem_of_nil.
    + lia.
    + destruct Hshort as [Hoff|Hfit]; [by left|right].
      pose proof (len_nonneg (carry v)). pose proof (len_nonneg l).
      change (len (carry v1)) with 0%Z. lia.
    + rewrite Hcarry', Hsent'. unfold v1 at 2 3. rewrite emit_sent by done.
      change (carry v1) with (@nil byte). simpl app at 1 3.
      rewrite app_assoc, pieces_app_LF by (rewrite elem_of_app; tauto).
      simpl. split; [done|]. rewrite <- app_assoc, length_app. simpl.
      by replace (length (sent v) + 1) with (S (length (sent v))) by lia.
Qed.

Lemma lineEvents_length (k : nat) (ls : list (list byte)) :
  length (lineEvents pathDisplay hadPartial k ls) = length ls.
Proof. revert k. induction ls as [|l ls IH]; intros k; simpl; [done|]. by rewrite IH. Qed.

(** The whole read loop: the lines that the held bytes and the bytes
    from [pos] to the end of the file complete are sent, what they leave
    unterminated is in [carry] at the end.  The fuel of [readFromOffset]
    is enough for that. *)
Lemma readLoop_pieces (fuel : nat) (file : list byte) (pos : nat) (v : readLoop_vars) :
  flags_ok hadPartial v →
  LF ∉ carry v →
  length file - pos < fuel →
  (maxBytes ≤ 0 ∨ len (carry v) + len (drop pos file) ≤ maxBytes)%Z →
  let v' := readLoop pathDisplay hadPartial maxBytes fuel file pos v in
  carry v' = snd (pieces (carry v ++ drop pos file))
  ∧ sent v' = sent v ++ lineEvents pathDisplay hadPartial (length (sent v))
                          (fst (pieces (carry v ++ drop pos file))).
Proof.
  revert pos v. induction fuel as [|fuel IH]; intros pos v Hv Hcarry Hfuel Hshort; [lia|].
  cbn [readLoop]. cbv zeta.
  set (data := take (Z.to_nat readChunkSize) (drop pos file)).
  assert (Hsplit : drop pos file = data ++ drop (pos + length data) file).
  { unfold data. rewrite <- drop_drop, length_take.
    rewrite <- (take_drop (Z.to_nat readChunkSize) (drop pos file)) at 1.
    f_equal. rewrite length_drop.
    destruct (decide (Z.to_nat readChunkSize ≤ length file - pos)) as [Hle|Hgt].
    - by rewrite Nat.min_l by done.
    - rewrite Nat.min_r by lia. rewrite !drop_ge; [done| |]; rewrite length_drop; lia. }
  destruct (len data >? 0)%Z eqn:Hlen.
  - match goal with
    | |- context [scanChunk _ _ _ _ data ?x] => set (v1 := x)
    end.
    assert (Hv1 : flags_ok hadPartial v1) by (destruct Hv; by split).
    rewrite Hsplit in Hshort. rewrite len_app in Hshort.
    pose proof (len_nonneg (drop (pos + length data) file)) as Hnn.
    destruct (scanChunk_pieces (length data) data v1 Hv1 Hcarry) as [Hc2 Hs2];
      [lia | destruct Hshort; [by left | right; simpl; lia] |].
    set (v2 := scanChunk _ _ _ _ data v1) in *.
    simpl in Hc2, Hs2.
    destruct (pieces_sound (carry v ++ data)) as (_ & _ & Hfrag).
    pose proof (pieces_fragment_length (carry v ++ data)) as Hflen.
    rewrite len_app in Hflen.
    assert (Hpos : 0 < length data ≤ length file - pos).
    { apply Z.gtb_lt in Hlen. unfold len in Hlen. split; [lia|].
      unfold data. rewrite length_take, length_drop. lia. }
    destruct (IH (pos + length data) v2) as [Hc' Hs'].
    + by apply scanChunk_flags_ok.
    + by rewrite Hc2.
    + lia.
    + rewrite Hc2. destruct Hshort; [by left | right; lia].
    + rewrite Hc', Hs', Hc2, Hs2, Hsplit, app_assoc, (pieces_app (carry v ++ data)).
      simpl. split; [done|].
      rewrite length_app, lineEvents_length, lineEvents_app, app_assoc. done.
  - assert (Hend : drop pos file = []).
    { apply length_zero_iff_nil.
      rewrite Z.gtb_ltb in Hlen. apply Z.ltb_ge in Hlen.
      unfold len, data in Hlen. rewrite length_take in Hlen.
      unfold readChunkSize in Hlen. lia. }
    simpl. rewrite Hend, app_nil_r, pieces_noLF by done. simpl.
    by rewrite app_nil_r.
Qed.
End ReaderLines.

Lemma lineEvents_plain (pathDisplay : string) (k : nat) (file : list byte) :
  lineEvents pathDisplay false k (fst (pieces file))
    = map (plainLine pathDisplay) (completeLines file).
Proof.
  unfold completeLines. revert k.
  induction (fst (pieces file)) as [|l ls IH]; intros k; simpl; [done|].
  by rewrite IH.
Qed.

Section ReadLines.
Context `{GoStdlib}.
Variable cfg : Config.

(** A read in which the held bytes and the new bytes together stay
    within the byte ceiling (or with the ceiling switched off): the
    complete lines of the held bytes followed by the new bytes are sent
    in order, then what remains unterminated as a partial, which is
    held. *)
Lemma readFromOffset_untruncated (fs : gmap string node) (path : string)
    (file : list byte) (state : fileState) (offset0 : Z) (inc : bool) :
  fs !! path = Some (Regular file) →
  (0 ≤ offset0)%Z →
  let held := if inc && (len (partial state) >? 0)%Z then partial state else [] in
  let hadPartial := partialDisplayed state && inc && (len (partial state) >? 0)%Z in
  let all := held ++ drop (Z.to_nat offset0) file in
  LF ∉ held →
  (MaxLineBytes cfg ≤ 0 ∨ len all ≤ MaxLineBytes cfg)%Z →
  let r := readFromOffset cfg fs path state offset0 inc in
  r_sent r
    = lineEvents (displayPath cfg path) hadPartial 0 (fst (pieces all))
      ++ (if decide (snd (pieces all) = []) then []
          else [event (displayPath cfg path) hadPartial (length (fst (pieces all)))
                      (string_of_list_byte (trimTrailingCR (snd (pieces all)))) true])
  ∧ partial (r_state r) = trimTrailingCR (snd (pieces all))
  ∧ partialDisplayed (r_state r) = nonempty (snd (pieces all)).
Proof.
  intros Hfs Hoff held hadPartial all Hheld Hshort r. subst r.
  unfold readFromOffset. rewrite Hfs.
  destruct (offset0 <? 0)%Z eqn:Hneg; [apply Z.ltb_lt in Hneg; lia|].
  change ([] ++ partial state) with (partial state). fold held hadPartial.
  set (v0 := {| carry := held; updatedPartial := false; totalRead := 0;
                sent := []; ops := _ |}).
  assert (Hv0 : flags_ok hadPartial v0).
  { split; simpl.
    - by rewrite andb_false_r.
    - intros i e Hi. done.
    - intros Hhad _. unfold hadPartial in Hhad. unfold held.
      apply andb_true_iff in Hhad as [Hhad Hlen].
      apply andb_true_iff in Hhad as [_ ->]. rewrite Hlen. simpl.
      intros Hnil. rewrite Hnil in Hlen. done. }
  destruct (readLoop_pieces (displayPath cfg path) hadPartial (MaxLineBytes cfg)
              (S (length file)) file (Z.to_nat offset0) v0 Hv0 Hheld)
    as [Hc Hs]; [lia | by rewrite <- len_app |].
  pose proof (readLoop_flags_ok (displayPath cfg path) hadPartial (MaxLineBytes cfg)
                (S (length file)) file (Z.to_nat offset0) v0 Hv0) as Hv.
  set (v := readLoop _ _ _ _ _ _ v0) in *.
  simpl in Hc, Hs. fold all in Hc, Hs.
  pose proof (pieces_fragment_length all) as Hflen.
  destruct (len (carry v) >? 0)%Z eqn:Hcarry.
  - rewrite truncateLineBytes_short.
    2:{ pose proof (trimTrailingCR_length_le (carry v)) as Htrim. rewrite Hc in *.
        destruct Hshort; [by left | right; unfold len in *; lia]. }
    simpl negb. cbv iota. rewrite emit_sent by done. rewrite Hs, Hc.
    rewrite lineEvents_length. simpl.
    destruct (snd (pieces all)) as [|b l] eqn:Hfrag.
    { rewrite Hc in Hcarry. done. }
    rewrite decide_False by done. done.
  - apply len_nil_iff in Hcarry. rewrite Hc in Hcarry. rewrite Hcarry, Hs. simpl.
    by rewrite app_nil_r.
Qed.
End ReadLines.

(** ** C4 and C9: [readNew] on a truncated and on an unchanged file *)

Section ReadCount.
Variable pathDisplay : string.
Variable hadPartial : bool.
Variable maxBytes : Z.

Lemma scanChunk_totalRead (fuel : nat) (data : list byte) (v : readLoop_vars) :
  totalRead (scanChunk pathDisplay hadPartial maxBytes fuel data v) = totalRead v.
Proof.
  revert data v. induction fuel as [|fuel IH]; intros data v; [done|].
  cbn [scanChunk].
  destruct (len data >? 0)%Z; [|done].
  destruct (IndexByte data LF <? 0)%Z.
  - destruct ((maxBytes >? 0)%Z && (len (carry v ++ data) >? maxBytes)%Z); [|done].
    by destruct (truncateLineBytes (carry v ++ data) maxBytes) as [text [|]].
  - destruct (truncateLineBytes _ maxBytes) as [text trunc]. by rewrite IH.
Qed.

(** The read loop runs to the end of the file: the fuel it is given
    is enough, and it counts every byte from [pos] on. *)
Lemma readLoop_totalRead (fuel : nat) (file : list byte) (pos : nat)
    (v : readLoop_vars) :
  length file - pos < fuel →
  totalRead (readLoop pathDisplay hadPartial maxBytes fuel file pos v)
    = (totalRead v + Z.of_nat (length file - pos))%Z.
Proof.
  revert pos v. induction fuel as [|fuel IH]; intros pos v Hfuel; [lia|].
  cbn [readLoop]. cbv zeta.
  set (data := take (Z.to_nat readChunkSize) (drop pos file)).
  assert (Hdata : length data = Z.to_nat readChunkSize `min` (length file - pos)).
  { unfold data. by rewrite length_take, length_drop. }
  assert (Hchunk : readChunkSize = 4096%Z) by done.
  destruct (len data >? 0)%Z eqn:Hn.
  - apply Z.gtb_lt in Hn. unfold len in Hn.
    rewrite IH by lia. rewrite scanChunk_totalRead. simpl. unfold len. lia.
  - rewrite Z.gtb_ltb in Hn. apply Z.ltb_ge in Hn. unfold len in Hn.
    simpl. lia.
Qed.
End ReadCount.

Section ReadNewFacts.
Context `{GoStdlib}.
Variable cfg : Config.

(** With no partial held, [includeExistingPartial] makes no
    difference. *)
Lemma readFromOffset_no_partial (fs : gmap string node) (path : string)
    (state : fileState) (offset0 : Z) (inc : bool) :
  partial state = [] →
  readFromOffset cfg fs path state offset0 inc
    = readFromOffset cfg fs path state offset0 false.
Proof.
  intros Hp. unfold readFromOffset. rewrite Hp.
  change (len (@nil byte) >? 0)%Z with false.
  by rewrite !andb_false_r.
Qed.

Lemma readFromOffset_offset (fs : gmap string node) (path : string)
    (file : list byte) (state : fileState) (offset0 : Z) (inc : bool) :
  fs !! path = Some (Regular file) →
  (0 ≤ offset0 ≤ len file)%Z →
  let r := readFromOffset cfg fs path state offset0 inc in
  r_err r = None ∧ offset (r_state r) = len file.
Proof.
  intros Hfs Hoff r. subst r. unfold readFromOffset. rewrite Hfs.
  destruct (offset0 <? 0)%Z eqn:Hneg; [apply Z.ltb_lt in Hneg; lia|].
  set (v := readLoop _ _ _ _ _ _ _).
  assert (Htotal : totalRead v = (len file - offset0)%Z).
  { unfold v. rewrite readLoop_totalRead by lia. simpl. unfold len in *. lia. }
  destruct (len (carry v) >? 0)%Z.
  - destruct (truncateLineBytes _ _) as [text [|]]; simpl; split; (done || lia).
  - simpl. split; (done || lia).
Qed.

(** C4.  When the size of the file has dropped below the stored
    offset, [readNew] forgets the offset, the held partial and its
    displayed flag and reads the file as a first read from the start
    does: it sends the same events, none of them an update, leaves
    the same state, and the new offset is the size of the file.  If the
    file stays within the byte ceiling (or the ceiling is switched
    off), the events are the complete lines of the file, in order, as
    new lines, and then its unterminated fragment, if any, as a
    partial. *)
Theorem readNew_truncated (fs : gmap string node) (path : string)
    (file : list byte) (state : fileState) :
  fs !! path = Some (Regular file) →
  (len file < offset state)%Z →
  let r := readNew cfg fs path state in
  let fresh := readFromOffset cfg fs path fileState_zero 0 false in
  r_err r = None
  ∧ r_sent r = r_sent fresh
  ∧ r_state r = r_state fresh
  ∧ r_ops r = OpStat path :: r_ops fresh
  ∧ offset (r_state r) = len file
  ∧ (∀ e, e ∈ r_sent r → Update e = false)
  ∧ ((MaxLineBytes cfg ≤ 0 ∨ len file ≤ MaxLineBytes cfg)%Z →
     r_sent r
       = map (plainLine (displayPath cfg path)) (completeLines file)
         ++ (if decide (fragment file = []) then []
             else [partialLine (displayPath cfg path)
                     (string_of_list_byte (trimTrailingCR (fragment file)))])).
Proof.
  intros Hfs Hlt r fresh.
  assert (Hr : r = {| r_err := r_err fresh; r_state := r_state fresh;
                      r_sent := r_sent fresh;
                      r_ops := OpStat path :: r_ops fresh |}).
  { unfold r, readNew, os_Stat. rewrite Hfs. simpl.
    destruct (len file =? offset state)%Z eqn:Heq; [apply Z.eqb_eq in Heq; lia|].
    destruct (len file <? offset state)%Z eqn:Hlt'; [|apply Z.ltb_ge in Hlt'; lia].
    simpl. fold fileState_zero.
    by rewrite (readFromOffset_no_partial fs path fileState_zero 0 true). }
  destruct (readFromOffset_offset fs path file fileState_zero 0 false Hfs)
    as [Herr Hoff]; [pose proof (len_nonneg file); lia|].
  fold fresh in Herr, Hoff.
  destruct (readFromOffset_flags cfg fs path fileState_zero 0 false) as [Hflags _].
  fold fresh in Hflags.
  rewrite Hr. simpl. repeat split; try done.
  - intros e He. apply list_elem_of_lookup in He as [i Hi].
    by rewrite (Hflags i e Hi).
  - intros Hshort.
    destruct (readFromOffset_untruncated cfg fs path file fileState_zero 0 false Hfs)
      as [Hsent _]; [lia | apply not_elem_of_nil | done |].
    fold fresh in Hsent. rewrite Hsent. simpl.
    by rewrite lineEvents_plain.
Qed.

(** C9.  When the size of the file equals the stored offset,
    [readNew] returns without error after the one [os.Stat]: the file
    is neither opened nor read, nothing is sent, and the state is the
    one it was given. *)
Theorem readNew_unchanged (fs : gmap string node) (path : string)
    (file : list byte) (state : fileState) :
  fs !! path = Some (Regular file) →
  len file = offset state →
  readNew cfg fs path state
    = {| r_err := None; r_state := state; r_sent := []; r_ops := [OpStat path] |}.
Proof.
  intros Hfs Hsize. unfold readNew, os_Stat. rewrite Hfs. simpl.
  by rewrite Hsize, Z.eqb_refl.
Qed.
End ReadNewFacts.
(** ** The read loop, chunk by chunk *)

Lemma readChunkSize_pos : (0 < readChunkSize)%Z.
Proof. done. Qed.

Lemma last_drop_lt {A} (n : nat) (l : list A) :
  n < length l → last (drop n l) = last l.
Proof.
  intros Hn. rewrite <- (take_drop n l) at 2. rewrite last_app.
  destruct (last (drop n l)) eqn:Hlast; [done|].
  apply last_None in Hlast.
  apply (f_equal length) in Hlast. rewrite length_drop in Hlast. simpl in Hlast. lia.
Qed.

Section Chunks.
Variable pathDisplay : string.
Variable hadPartial : bool.
Variable maxBytes : Z.

Local Notation "'sc'" := (scanChunk pathDisplay hadPartial maxBytes).
Local Notation "'rl'" := (readLoop pathDisplay hadPartial maxBytes).
Local Notation "'em'" := (emit pathDisplay hadPartial).

Lemma emit_same_events (text : string) (p : bool) (v w : readLoop_vars)
    (c : list byte) :
  same_events v w → same_events (em text p v c) (em text p w c).
Proof.
  intros (Hc & Hu & Hs). unfold same_events, emit. simpl. by rewrite Hu, Hs.
Qed.

Lemma scanChunk_same_events (fuel : nat) (data : list byte) (v w : readLoop_vars) :
  same_events v w → same_events (sc fuel data v) (sc fuel data w).
Proof.
  revert data v w. induction fuel as [|fuel IH]; intros data v w Hvw; [done|].
  cbn [scanChunk]. destruct (len data >? 0)%Z; [|done].
  pose proof Hvw as (Hc & Hu & Hs). rewrite Hc.
  destruct (IndexByte data LF <? 0)%Z.
  - destruct ((maxBytes >? 0)%Z && (len (carry w ++ data) >? maxBytes)%Z).
    + destruct (truncateLineBytes _ maxBytes) as [text [|]].
      * by apply emit_same_events.
      * by split.
    + by split.
  - destruct (truncateLineBytes _ maxBytes) as [text trunc].
    by apply IH, emit_same_events.
Qed.

Lemma scanChunk_sent_prefix (fuel : nat) (data : list byte) (v : readLoop_vars) :
  sent v `prefix_of` sent (sc fuel data v).
Proof.
  revert data v. induction fuel as [|fuel IH]; intros data v; [done|].
  cbn [scanChunk]. destruct (len data >? 0)%Z; [|done].
  destruct (IndexByte data LF <? 0)%Z.
  - destruct ((maxBytes >? 0)%Z && (len (carry v ++ data) >? maxBytes)%Z); [|done].
    destruct (truncateLineBytes _ maxBytes) as [text [|]]; [|done].
    by apply prefix_app_r.
  - destruct (truncateLineBytes _ maxBytes) as [text trunc].
    etrans; [|apply IH]. by apply prefix_app_r.
Qed.

Lemma readLoop_sent_prefix (fuel : nat) (file : list byte) (pos : nat)
    (v : readLoop_vars) :
  sent v `prefix_of` sent (rl fuel file pos v).
Proof.
  revert pos v. induction fuel as [|fuel IH]; intros pos v; [done|].
  cbn [readLoop]. cbv zeta.
  destruct (len (take (Z.to_nat readChunkSize) (drop pos file)) >? 0)%Z; [|done].
  etrans; [|apply IH]. etrans; [|apply scanChunk_sent_prefix]. done.
Qed.

Lemma scanChunk_nil (fuel : nat) (v : readLoop_vars) : sc fuel [] v = v.
Proof. by destruct fuel. Qed.

(** One turn of the scan: the bytes before the first terminator
    complete a line. *)
Lemma scanChunk_line_step (fuel : nat) (l rest : list byte) (v : readLoop_vars) :
  LF ∉ l →
  sc (S fuel) (l ++ LF :: rest) v
    = sc fuel rest
        (em (fst (truncateLineBytes (trimTrailingCR (carry v ++ l)) maxBytes))
            false v []).
Proof.
  intros Hno. cbn [scanChunk].
  destruct (len (l ++ LF :: rest) >? 0)%Z eqn:Hlen.
  2:{ apply len_nil_iff in Hlen. by apply app_nil in Hlen as [_ ?]. }
  rewrite IndexByte_first by done.
  pose proof (len_nonneg l) as Hnn.
  destruct (len l <? 0)%Z eqn:Hneg; [apply Z.ltb_lt in Hneg; lia|].
  replace (Z.to_nat (len l)) with (length l) by (unfold len; lia).
  replace (Z.to_nat (len l + 1)) with (length (l ++ [LF]))
    by (rewrite length_app; unfold len; simpl; lia).
  rewrite take_app_length.
  rewrite (cons_middle LF l rest), app_assoc, drop_app_length.
  by destruct (truncateLineBytes _ maxBytes) as [text trunc].
Qed.

(** A chunk that goes on after a terminator is scanned as its two
    parts are, one after the other. *)
Lemma scanChunk_app_LF (fuel : nat) (a b : list byte) (v : readLoop_vars) :
  length (a ++ LF :: b) ≤ fuel →
  sc fuel (a ++ LF :: b) v = sc fuel b (sc fuel (a ++ [LF]) v).
Proof.
  revert a v. induction fuel as [|fuel IH]; intros a v Hfuel.
  { rewrite length_app in Hfuel. simpl in Hfuel. lia. }
  rewrite length_app in Hfuel. simpl in Hfuel.
  destruct (decide (LF ∈ a)) as [Hin|Hno].
  - apply list_elem_of_split_l in Hin as (l & a' & -> & Hl).
    rewrite <- !app_assoc, <- !app_comm_cons.
    rewrite !scanChunk_line_step by done.
    rewrite length_app in Hfuel. simpl in Hfuel.
    rewrite IH by (rewrite length_app; simpl; lia).
    apply scanChunk_fuel; lia.
  - rewrite !scanChunk_line_step by done.
    rewrite scanChunk_nil. apply scanChunk_fuel; lia.
Qed.

(** After a chunk that ends in a terminator the accumulator is empty
    and an event has been sent. *)
Lemma scanChunk_ends_LF (fuel : nat) (a : list byte) (v : readLoop_vars) :
  length a < fuel →
  carry (sc fuel (a ++ [LF]) v) = [] ∧ sent (sc fuel (a ++ [LF]) v) ≠ [].
Proof.
  revert a v. induction fuel as [|fuel IH]; intros a v Hfuel; [lia|].
  destruct (decide (LF ∈ a)) as [Hin|Hno].
  - apply list_elem_of_split_l in Hin as (l & a' & -> & Hl).
    rewrite <- !app_assoc, <- !app_comm_cons.
    rewrite scanChunk_line_step by done.
    rewrite length_app in Hfuel. simpl in Hfuel.
    apply IH. lia.
  - rewrite scanChunk_line_step by done. rewrite scanChunk_nil. simpl.
    split; [done|]. intros Hnil. by apply app_nil in Hnil as [_ ?].
Qed.
End Chunks.

(** ** C5: the oversized-line policy *)

Section OneChunk.
Variable pathDisplay : string.
Variable hadPartial : bool.
Variable maxBytes : Z.

(** A chunk without a terminator goes to the accumulator, which is
    flushed if it has grown past the ceiling. *)
Lemma scanChunk_unterminated (fuel : nat) (data : list byte) (v : readLoop_vars) :
  LF ∉ data → data ≠ [] →
  scanChunk pathDisplay hadPartial maxBytes (S fuel) data v
    = if ((maxBytes >? 0) && (len (carry v ++ data) >? maxBytes))%Z
      then emit pathDisplay hadPartial
             (fst (truncateLineBytes (carry v ++ data) maxBytes)) false v []
      else set_carry v (carry v ++ data).
Proof.
  intros Hno Hne. cbn [scanChunk].
  destruct (len data >? 0)%Z eqn:Hlen; [|by apply len_nil_iff in Hlen].
  rewrite IndexByte_notin by done. change (-1 <? 0)%Z with true. cbv iota.
  destruct ((maxBytes >? 0)%Z && (len (carry v ++ data) >? maxBytes)%Z) eqn:Hc; [|done].
  unfold truncateLineBytes. by rewrite Hc.
Qed.

(** A chunk that is a terminator-free piece and its terminator
    completes one line. *)
Lemma scanChunk_terminated (fuel : nat) (tail : list byte) (v : readLoop_vars) :
  LF ∉ tail →
  scanChunk pathDisplay hadPartial maxBytes (S fuel) (tail ++ [LF]) v
    = emit pathDisplay hadPartial
        (fst (truncateLineBytes (trimTrailingCR (carry v ++ tail)) maxBytes))
        false v [].
Proof.
  intros Hno. cbn [scanChunk].
  destruct (len (tail ++ [LF]) >? 0)%Z eqn:Hlen.
  2:{ apply len_nil_iff in Hlen. by apply app_nil in Hlen as [_ ?]. }
  rewrite IndexByte_first by done.
  pose proof (len_nonneg tail) as Hnn.
  destruct (len tail <? 0)%Z eqn:Hneg; [apply Z.ltb_lt in Hneg; lia|].
  replace (Z.to_nat (len tail)) with (length tail) by (unfold len; lia).
  replace (Z.to_nat (len tail + 1)) with (length (tail ++ [LF]))
    by (rewrite length_app; unfold len; simpl; lia).
  rewrite take_app_length, drop_all.
  destruct (truncateLineBytes _ maxBytes) as [text trunc]. simpl fst.
  by destruct fuel.
Qed.

(** When what is left of the file fits in one chunk, the read loop
    reads it, scans it, and meets the end of the file. *)
Lemma readLoop_one_chunk (fuel : nat) (file : list byte) (pos : nat)
    (v : readLoop_vars) :
  drop pos file ≠ [] →
  (len (drop pos file) ≤ readChunkSize)%Z →
  let data := drop pos file in
  let v1 := scanChunk pathDisplay hadPartial maxBytes (length data) data
              {| carry := carry v; updatedPartial := updatedPartial v;
                 totalRead := (totalRead v + len data)%Z; sent := sent v;
                 ops := ops v ++ [OpRead (len data)] |} in
  readLoop pathDisplay hadPartial maxBytes (S (S fuel)) file pos v
    = {| carry := carry v1; updatedPartial := updatedPartial v1;
         totalRead := totalRead v1; sent := sent v1;
         ops := ops v1 ++ [OpRead 0] |}.
Proof.
  intros Hne Hfit data v1. cbn [readLoop]. cbv zeta.
  assert (Htake : take (Z.to_nat readChunkSize) (drop pos file) = data).
  { apply take_ge. unfold data, len in *. lia. }
  rewrite Htake.
  destruct (len data >? 0)%Z eqn:Hlen; [|by apply len_nil_iff in Hlen].
  assert (Hend : drop (pos + length data) file = []).
  { apply drop_ge. unfold data. rewrite length_drop. lia. }
  rewrite Hend, take_nil. simpl. done.
Qed.

Lemma truncateLineBytes_long (l : list byte) :
  (0 < maxBytes < len l)%Z →
  truncateLineBytes l maxBytes
    = (string_of_list_byte (take (Z.to_nat maxBytes) l) +:+ " [truncated]", true).
Proof.
  intros [Hpos Hlong]. unfold truncateLineBytes.
  apply Z.gtb_lt in Hpos, Hlong. by rewrite Hpos, Hlong.
Qed.

(** A chunk of bytes inside a line that keeps the accumulator within
    the ceiling is added to it. *)
Lemma scanChunk_line_inside (fuel : nat) (d : list byte) (v : readLoop_vars) :
  LF ∉ d → d ≠ [] → length d ≤ fuel →
  (len (carry v) + len d ≤ maxBytes)%Z →
  scanChunk pathDisplay hadPartial maxBytes fuel d v = set_carry v (carry v ++ d).
Proof.
  intros Hno Hne Hfuel Hfit.
  destruct fuel as [|fuel]; [destruct d; [done|simpl in Hfuel; lia]|].
  rewrite scanChunk_unterminated by done.
  rewrite len_app.
  destruct (len (carry v) + len d >? maxBytes)%Z eqn:Hgt;
    [apply Z.gtb_lt in Hgt; lia|].
  by rewrite andb_false_r.
Qed.

Section Line.
Variable terminated : bool.
Local Notation "'term'" := (if terminated then [LF] else []).
Local Notation "'oversized' line u" :=
  {| Path := pathDisplay;
     Text := string_of_list_byte (take (Z.to_nat maxBytes) line) +:+ " [truncated]";
     Partial := false; Update := u |}
  (at level 10, line at level 9, u at level 9).

(** The last chunk of an oversized line flushes the accumulator as one
    truncated event. *)
Lemma scanChunk_line_end (fuel : nat) (todo line : list byte) (v : readLoop_vars) :
  LF ∉ todo → todo ++ term ≠ [] → length (todo ++ term) ≤ fuel →
  line = (if terminated then trimTrailingCR (carry v ++ todo) else carry v ++ todo) →
  (0 < maxBytes < len line)%Z →
  scanChunk pathDisplay hadPartial maxBytes fuel (todo ++ term) v
    = emit pathDisplay hadPartial
        (string_of_list_byte (take (Z.to_nat maxBytes) line) +:+ " [truncated]")
        false v [].
Proof.
  intros Hno Hne Hfuel -> Hlong.
  destruct fuel as [|fuel].
  { destruct (todo ++ term); [done|simpl in Hfuel; lia]. }
  destruct terminated.
  - rewrite scanChunk_terminated by done.
    by rewrite (truncateLineBytes_long _ Hlong).
  - rewrite app_nil_r in *. rewrite scanChunk_unterminated by done.
    destruct Hlong as [Hpos Hlong].
    pose proof Hpos as Hpos'. pose proof Hlong as Hlong'.
    apply Z.gtb_lt in Hpos', Hlong'. rewrite Hpos', Hlong'.
    cbn [andb]. by rewrite (truncateLineBytes_long _ (conj Hpos Hlong)).
Qed.

(** From inside an oversized line on: if no chunk boundary finds the
    accumulator over the ceiling, the loop sends one truncated event
    for the line and stops with an empty accumulator. *)
Lemma readLoop_in_line (fuel : nat) (file : list byte) (pos : nat)
    (todo line : list byte) (v : readLoop_vars) :
  drop pos file = todo ++ term →
  LF ∉ todo → todo ++ term ≠ [] → length (todo ++ term) < fuel →
  line = (if terminated then trimTrailingCR (carry v ++ todo) else carry v ++ todo) →
  (0 < maxBytes < len line)%Z →
  (∀ j : Z, (0 < j)%Z → (readChunkSize * j < len (todo ++ term))%Z →
     (len (carry v) + readChunkSize * j ≤ maxBytes)%Z) →
  sent (readLoop pathDisplay hadPartial maxBytes fuel file pos v)
    = sent v ++ [oversized line (hadPartial && negb (updatedPartial v))]
  ∧ carry (readLoop pathDisplay hadPartial maxBytes fuel file pos v) = [].
Proof.
  revert pos todo v.
  induction fuel as [|fuel IH];
    intros pos todo v Hdrop Hno Hne Hfuel Hline Hlong Hbound; [lia|].
  pose proof readChunkSize_pos as HC.
  assert (Hlen : length file = pos + length (todo ++ term)).
  { rewrite <- Hdrop, length_drop.
    destruct (decide (pos ≤ length file)); [lia|].
    rewrite drop_ge in Hdrop by lia. by destruct Hne. }
  assert (Hpos : 0 < length (todo ++ term)).
  { destruct (todo ++ term); [done|simpl; lia]. }
  cbn [readLoop]. cbv zeta. rewrite Hdrop.
  destruct (decide (length (todo ++ term) ≤ Z.to_nat readChunkSize)) as [Hfit|Hbig].
  - rewrite take_ge by lia.
    destruct (len (todo ++ term) >? 0)%Z eqn:Hgt; [|by apply len_nil_iff in Hgt].
    rewrite (scanChunk_line_end _ todo line) by done.
    destruct fuel as [|fuel]; [lia|].
    cbn [readLoop]. cbv zeta.
    rewrite drop_ge by lia. rewrite take_nil.
    change (len (@nil byte) >? 0)%Z with false. cbv iota.
    by cbn [sent carry emit updatedPartial].
  - assert (Htodo : Z.to_nat readChunkSize ≤ length todo).
    { rewrite length_app in Hbig. destruct terminated; simpl in Hbig; lia. }
    rewrite take_app_le by lia.
    set (d := take (Z.to_nat readChunkSize) todo).
    assert (Hd : length d = Z.to_nat readChunkSize).
    { unfold d. rewrite length_take. lia. }
    assert (Hdne : d ≠ []).
    { intros Hnil. rewrite Hnil in Hd. simpl in Hd. lia. }
    assert (Hdno : LF ∉ d).
    { intros Hin. apply Hno. by apply (subseteq_take (Z.to_nat readChunkSize) todo). }
    destruct (len d >? 0)%Z eqn:Hgt; [|by apply len_nil_iff in Hgt].
    assert (Hfits : (len (carry v) + len d ≤ maxBytes)%Z).
    { replace (len d) with (readChunkSize * 1)%Z by (unfold len; lia).
      apply Hbound; [lia|]. unfold len. lia. }
    rewrite scanChunk_line_inside by done.
    match goal with
    | |- context [readLoop _ _ _ fuel file ?p ?w] =>
        destruct (IH p (drop (Z.to_nat readChunkSize) todo) w) as [Hs Hc];
          [| | | | | | |split; [exact Hs|exact Hc]]
    end.
    + rewrite <- drop_drop, Hdrop, Hd. by apply drop_app_le.
    + intros Hin. apply Hno.
      by apply (subseteq_drop (Z.to_nat readChunkSize) todo).
    + intros Hnil. apply (f_equal length) in Hnil.
      rewrite length_app, length_drop in Hnil.
      rewrite length_app in Hbig. simpl in Hnil. lia.
    + rewrite length_app, length_drop. rewrite length_app in Hfuel. lia.
    + cbn [carry set_carry]. rewrite <- app_assoc. unfold d.
      by rewrite take_drop.
    + done.
    + intros j Hj Hin. cbn [carry set_carry]. rewrite len_app.
      replace (len d) with readChunkSize by (unfold len; lia).
      replace (len (carry v) + readChunkSize + readChunkSize * j)%Z
        with (len (carry v) + readChunkSize * (j + 1))%Z by lia.
      apply Hbound; [lia|].
      rewrite len_app in Hin. rewrite len_app.
      unfold len in Hin. rewrite length_drop in Hin. unfold len. lia.
Qed.

(** Up to an oversized line that does not start the read: the loop
    sends what it sends on the file that ends before the line, and
    then one truncated event for the line. *)
Lemma readLoop_before_line (fuel : nat) (file1 file2 : list byte) (pos : nat)
    (todoPre piece line : list byte) (v : readLoop_vars) :
  drop pos file1 = todoPre →
  drop pos file2 = todoPre ++ piece ++ term →
  last todoPre = Some LF →
  LF ∉ piece → piece ++ term ≠ [] →
  length (todoPre ++ piece ++ term) < fuel →
  flags_ok hadPartial v →
  line = (if terminated then trimTrailingCR piece else piece) →
  (0 < maxBytes < len line)%Z →
  (∀ j : Z, (0 < j)%Z →
     (len todoPre < readChunkSize * j < len todoPre + len (piece ++ term))%Z →
     (readChunkSize * j - len todoPre ≤ maxBytes)%Z) →
  sent (readLoop pathDisplay hadPartial maxBytes fuel file2 pos v)
    = sent (readLoop pathDisplay hadPartial maxBytes fuel file1 pos v)
      ++ [oversized line false]
  ∧ carry (readLoop pathDisplay hadPartial maxBytes fuel file2 pos v) = []
  ∧ carry (readLoop pathDisplay hadPartial maxBytes fuel file1 pos v) = [].
Proof.
  revert pos todoPre v.
  induction fuel as [|fuel IH];
    intros pos todoPre v Hd1 Hd2 Hlast Hno Hne Hfuel Hv Hline Hlong Hbound; [lia|].
  pose proof readChunkSize_pos as HC.
  assert (HX : 0 < length (piece ++ term)).
  { destruct (piece ++ term); [done|simpl; lia]. }
  assert (Hpre : 0 < length todoPre).
  { destruct todoPre; [done|simpl; lia]. }
  assert (Hlen1 : length file1 = pos + length todoPre).
  { rewrite <- Hd1, length_drop.
    destruct (decide (pos ≤ length file1)); [lia|].
    rewrite drop_ge in Hd1 by lia. subst todoPre. simpl in Hpre. lia. }
  assert (Hlen2 : length file2 = pos + length (todoPre ++ piece ++ term)).
  { rewrite <- Hd2, length_drop.
    destruct (decide (pos ≤ length file2)); [lia|].
    rewrite drop_ge in Hd2 by lia. apply (f_equal length) in Hd2.
    rewrite length_app in Hd2. simpl in Hd2. lia. }
  cbn [readLoop]. cbv zeta. rewrite Hd1, Hd2.
  destruct (decide (Z.to_nat readChunkSize < length todoPre)) as [Hbig|Hfit].
  - rewrite (take_app_le todoPre) by lia.
    set (d := take (Z.to_nat readChunkSize) todoPre).
    assert (Hd : length d = Z.to_nat readChunkSize).
    { unfold d. rewrite length_take. lia. }
    destruct (len d >? 0)%Z eqn:Hgt.
    2:{ apply len_nil_iff in Hgt. rewrite Hgt in Hd. simpl in Hd. lia. }
    match goal with
    | |- context [readLoop _ _ _ fuel file1 ?p ?w] =>
        apply (IH p (drop (Z.to_nat readChunkSize) todoPre) w)
    end.
    + by rewrite <- drop_drop, Hd1, Hd.
    + rewrite <- drop_drop, Hd2, Hd. apply drop_app_le. lia.
    + by rewrite last_drop_lt.
    + done.
    + done.
    + rewrite length_app, length_drop. rewrite length_app in Hfuel. lia.
    + apply scanChunk_flags_ok. destruct Hv. by split.
    + done.
    + done.
    + intros j Hj [Hlo Hhi].
      unfold len in Hlo, Hhi. rewrite length_drop in Hlo, Hhi.
      unfold len. rewrite length_drop.
      assert (Hb := Hbound (j + 1)%Z). unfold len in Hb. lia.
  - apply last_Some in Hlast as [a ->].
    rewrite (take_ge (a ++ [LF])) by lia. rewrite take_app_ge by lia.
    set (m := Z.to_nat readChunkSize - length (a ++ [LF])).
    set (b := take m (piece ++ term)).
    set (F := length ((a ++ [LF]) ++ b)).
    destruct (len (a ++ [LF]) >? 0)%Z eqn:Hgt1.
    2:{ apply len_nil_iff in Hgt1. by apply app_nil in Hgt1 as [_ ?]. }
    destruct (len ((a ++ [LF]) ++ b) >? 0)%Z eqn:Hgt2.
    2:{ apply len_nil_iff in Hgt2. apply app_nil in Hgt2 as [Hgt2 _].
        by apply app_nil in Hgt2 as [_ ?]. }
    destruct fuel as [|fuel]; [rewrite length_app in Hfuel; lia|].
    match goal with
    | |- context [readLoop _ _ _ (S fuel) file1 _ ?w] => set (w1 := w)
    end.
    match goal with
    | |- context [readLoop _ _ _ (S fuel) file2 _ (scanChunk _ _ _ _ _ ?x)] =>
        set (vb2 := x)
    end.
    match goal with
    | |- context [readLoop _ _ _ (S fuel) file2 _ ?w] => set (w2 := w)
    end.
    assert (Hrun1 :
      sent (readLoop pathDisplay hadPartial maxBytes (S fuel) file1
              (pos + length (a ++ [LF])) w1) = sent w1
      ∧ carry (readLoop pathDisplay hadPartial maxBytes (S fuel) file1
                 (pos + length (a ++ [LF])) w1) = carry w1).
    { cbn [readLoop]. cbv zeta. rewrite drop_ge by lia. rewrite take_nil.
      change (len (@nil byte) >? 0)%Z with false. cbv iota. done. }
    destruct Hrun1 as [-> ->].
    assert (Hvb2 : flags_ok hadPartial vb2) by (destruct Hv; by split).
    set (w2a := scanChunk pathDisplay hadPartial maxBytes F (a ++ [LF]) vb2).
    assert (Hw2 : w2 = scanChunk pathDisplay hadPartial maxBytes F b w2a).
    { unfold w2, w2a, F. rewrite <- (app_assoc a [LF] b).
      by apply scanChunk_app_LF. }
    assert (Hsame : same_events w1 w2a).
    { unfold w1, w2a.
      rewrite (scanChunk_fuel _ _ _ (length (a ++ [LF])) F)
        by (unfold F; rewrite ?length_app; lia).
      apply scanChunk_same_events. by split. }
    destruct (scanChunk_ends_LF pathDisplay hadPartial maxBytes F a vb2)
      as [Hc2a Hs2a].
    { unfold F. rewrite !length_app. simpl. lia. }
    fold w2a in Hc2a, Hs2a.
    assert (Hf2a : flags_ok hadPartial w2a) by (by apply scanChunk_flags_ok).
    assert (Hupd : hadPartial && negb (updatedPartial w2a) = false).
    { rewrite (fo_updated _ _ Hf2a). destruct (sent w2a); [done|].
      by destruct hadPartial. }
    destruct Hsame as (Hc1 & Hu1 & Hs1).
    rewrite Hc1, Hs1, Hc2a.
    destruct (decide (length (piece ++ term) ≤ m)) as [Hend|Hmore].
    + assert (Hb : b = piece ++ term) by (unfold b; by rewrite take_ge).
      assert (Hw2' : w2 = emit pathDisplay hadPartial
                (string_of_list_byte (take (Z.to_nat maxBytes) line)
                 +:+ " [truncated]") false w2a []).
      { rewrite Hw2, Hb. apply scanChunk_line_end; try done.
        - unfold F. rewrite Hb, !length_app. lia.
        - by rewrite Hc2a. }
      cbn [readLoop]. cbv zeta.
      rewrite drop_ge by (unfold F; rewrite Hlen2, Hb, !length_app; lia).
      rewrite take_nil.
      change (len (@nil byte) >? 0)%Z with false. cbv iota.
      cbn [sent carry]. rewrite Hw2'. cbn [sent carry emit].
      by rewrite Hupd.
    + assert (Hm : m ≤ length piece).
      { rewrite length_app in Hmore. destruct terminated; simpl in Hmore; lia. }
      assert (Hb : b = take m piece) by (unfold b; by rewrite take_app_le).
      assert (Hblen : length b = m) by (rewrite Hb, length_take; lia).
      assert (Hbno : LF ∉ b).
      { rewrite Hb. intros Hin. apply Hno. by apply (subseteq_take m piece). }
      assert (Hw2' : carry w2 = b ∧ sent w2 = sent w2a
                     ∧ updatedPartial w2 = updatedPartial w2a).
      { rewrite Hw2. destruct (decide (b = [])) as [Hnil|Hbne].
        - rewrite Hnil, scanChunk_nil. by rewrite Hc2a.
        - rewrite scanChunk_line_inside; [by rewrite Hc2a|done|done| |].
          + unfold F. rewrite length_app. lia.
          + rewrite Hc2a.
            assert (0 < m) by (destruct b; [done|simpl in Hblen; lia]).
            assert (Hb1 := Hbound 1%Z). unfold len in Hb1 |- *.
            pose proof (length_app a [LF]) as Hla.
            pose proof (length_app piece term) as Hlx. simpl in Hla.
            rewrite Hblen. clear Hblen Hb Hm. unfold m in *. simpl length. lia. }
      destruct Hw2' as (Hcw & Hsw & Huw).
      destruct (readLoop_in_line (S fuel) file2 (pos + F) (drop m piece) line w2)
        as [Hs Hc].
      * unfold F. rewrite <- drop_drop, Hd2.
        rewrite <- (take_drop m (piece ++ term)) at 1. fold b.
        rewrite app_assoc, drop_app_length. by apply drop_app_le.
      * intros Hin. apply Hno. by apply (subseteq_drop m piece).
      * intros Hnil. apply (f_equal length) in Hnil.
        rewrite length_app, length_drop in Hnil.
        rewrite length_app in Hmore. simpl in Hnil. lia.
      * rewrite length_app, length_drop. rewrite !length_app in Hfuel.
        simpl in Hfuel. lia.
      * rewrite Hcw, Hb, take_drop. done.
      * done.
      * intros j Hj Hin. rewrite Hcw.
        assert (Hb1 := Hbound (j + 1)%Z).
        unfold len in Hin, Hb1 |- *.
        rewrite length_app, length_drop in Hin.
        pose proof (length_app a [LF]) as Hla.
        pose proof (length_app piece term) as Hlx. simpl in Hla.
        rewrite Hblen. clear Hblen Hb. unfold m in *. lia.
      * fold F. rewrite Hs, Hc, Hsw, Huw, Hupd. done.
Qed.
End Line.

(** What the loop has sent when the file ends with a line is sent
    first when the file goes on after that line. *)
Lemma readLoop_sent_causal (fuel : nat) (file1 file2 : list byte) (pos : nat)
    (todo rest : list byte) (v : readLoop_vars) :
  drop pos file1 = todo →
  drop pos file2 = todo ++ rest →
  todo = [] ∨ last todo = Some LF →
  sent (readLoop pathDisplay hadPartial maxBytes fuel file1 pos v)
    `prefix_of` sent (readLoop pathDisplay hadPartial maxBytes fuel file2 pos v).
Proof.
  revert pos todo v.
  induction fuel as [|fuel IH]; intros pos todo v Hd1 Hd2 Hlast; [done|].
  pose proof readChunkSize_pos as HC.
  destruct Hlast as [->|Hlast].
  { assert (Hrun1 : sent (readLoop pathDisplay hadPartial maxBytes (S fuel)
                            file1 pos v) = sent v).
    { cbn [readLoop]. cbv zeta. rewrite Hd1, take_nil.
      by change (len (@nil byte) >? 0)%Z with false. }
    rewrite Hrun1. apply readLoop_sent_prefix. }
  assert (Hpre : 0 < length todo).
  { destruct todo; [done|simpl; lia]. }
  assert (Hlen1 : length file1 = pos + length todo).
  { rewrite <- Hd1, length_drop.
    destruct (decide (pos ≤ length file1)); [lia|].
    rewrite drop_ge in Hd1 by lia. subst todo. simpl in Hpre. lia. }
  cbn [readLoop]. cbv zeta. rewrite Hd1, Hd2.
  destruct (decide (Z.to_nat readChunkSize < length todo)) as [Hbig|Hfit].
  - rewrite (take_app_le todo) by lia.
    set (d := take (Z.to_nat readChunkSize) todo).
    assert (Hd : length d = Z.to_nat readChunkSize).
    { unfold d. rewrite length_take. lia. }
    destruct (len d >? 0)%Z eqn:Hgt; [|done].
    apply (IH _ (drop (Z.to_nat readChunkSize) todo)).
    + by rewrite <- drop_drop, Hd1, Hd.
    + rewrite <- drop_drop, Hd2, Hd. apply drop_app_le. lia.
    + right. by rewrite last_drop_lt.
  - apply last_Some in Hlast as [a ->].
    rewrite (take_ge (a ++ [LF])) by lia. rewrite take_app_ge by lia.
    set (b := take (Z.to_nat readChunkSize - length (a ++ [LF])) rest).
    set (F := length ((a ++ [LF]) ++ b)).
    destruct (len (a ++ [LF]) >? 0)%Z eqn:Hgt1.
    2:{ apply len_nil_iff in Hgt1. by apply app_nil in Hgt1 as [_ ?]. }
    destruct (len ((a ++ [LF]) ++ b) >? 0)%Z eqn:Hgt2.
    2:{ apply len_nil_iff in Hgt2. apply app_nil in Hgt2 as [Hgt2 _].
        by apply app_nil in Hgt2 as [_ ?]. }
    match goal with
    | |- context [readLoop _ _ _ fuel file1 _ ?w] => set (w1 := w)
    end.
    match goal with
    | |- context [readLoop _ _ _ fuel file2 _ (scanChunk _ _ _ _ _ ?x)] =>
        set (vb2 := x)
    end.
    match goal with
    | |- context [readLoop _ _ _ fuel file2 _ ?w] => set (w2 := w)
    end.
    assert (Hrun1 :
      sent (readLoop pathDisplay hadPartial maxBytes fuel file1
              (pos + length (a ++ [LF])) w1) = sent w1).
    { destruct fuel as [|fuel']; [done|].
      cbn [readLoop]. cbv zeta. rewrite drop_ge by lia. rewrite take_nil.
      by change (len (@nil byte) >? 0)%Z with false. }
    rewrite Hrun1.
    set (w2a := scanChunk pathDisplay hadPartial maxBytes F (a ++ [LF]) vb2).
    assert (Hw2 : w2 = scanChunk pathDisplay hadPartial maxBytes F b w2a).
    { unfold w2, w2a, F. rewrite <- (app_assoc a [LF] b).
      by apply scanChunk_app_LF. }
    assert (Hsame : same_events w1 w2a).
    { unfold w1, w2a.
      rewrite (scanChunk_fuel _ _ _ (length (a ++ [LF])) F)
        by (unfold F; rewrite ?length_app; lia).
      apply scanChunk_same_events. by split. }
    destruct Hsame as (_ & _ & ->).
    etrans; [|apply readLoop_sent_prefix].
    rewrite Hw2. apply scanChunk_sent_prefix.
Qed.
End OneChunk.

Section OversizedLine.
Context `{GoStdlib}.
Variable cfg : Config.

(** The events of a call are those of its read loop, and then the
    partial, if one is left in the accumulator. *)
Lemma readFromOffset_loop (fs : gmap string node) (path : string)
    (content : list byte) (state : fileState) (offset0 : Z) (inc : bool)
    (fuel : nat) :
  fs !! path = Some (Regular content) →
  (0 ≤ offset0)%Z →
  length content < fuel →
  let hadPartial := partialDisplayed state && inc && (len (partial state) >? 0)%Z in
  let v := readLoop (displayPath cfg path) hadPartial (MaxLineBytes cfg)
             fuel content (Z.to_nat offset0)
             {| carry := if inc && (len (partial state) >? 0)%Z
                         then partial state else [];
                updatedPartial := false; totalRead := 0; sent := [];
                ops := [OpOpen path; OpSeek offset0] |} in
  let r := readFromOffset cfg fs path state offset0 inc in
  sent v `prefix_of` r_sent r
  ∧ (carry v = [] →
     r_sent r = sent v
     ∧ partial (r_state r) = [] ∧ partialDisplayed (r_state r) = false).
Proof.
  intros Hfs Hoff Hfuel hadPartial v r. subst r. unfold readFromOffset.
  rewrite Hfs.
  destruct (offset0 <? 0)%Z eqn:Hneg; [apply Z.ltb_lt in Hneg; lia|].
  fold hadPartial.
  change ([] ++ partial state) with (partial state).
  rewrite (readLoop_fuel _ _ _ (S (length content)) fuel) by lia.
  fold v.
  destruct (len (carry v) >? 0)%Z eqn:Hcarry.
  - destruct (truncateLineBytes _ _) as [text trunc]. split.
    + cbn [r_sent sent emit]. by apply prefix_app_r.
    + intros Hnil. rewrite Hnil in Hcarry. done.
  - by cbn [r_sent r_state partial partialDisplayed].
Qed.

Lemma readLoop_start_flags_ok (path : string) (state : fileState) (offset0 : Z)
    (inc : bool) :
  flags_ok (partialDisplayed state && inc && (len (partial state) >? 0)%Z)
    {| carry := if inc && (len (partial state) >? 0)%Z
                then partial state else [];
       updatedPartial := false; totalRead := 0; sent := [];
       ops := [OpOpen path; OpSeek offset0] |}.
Proof.
  split; simpl.
  - by rewrite andb_false_r.
  - intros i e Hi. done.
  - intros Hhad _.
    apply andb_true_iff in Hhad as [Hhad Hlen].
    apply andb_true_iff in Hhad as [_ ->]. rewrite Hlen. simpl.
    intros Hnil. rewrite Hnil in Hlen. done.
Qed.

(** C5, as the code has it.  Let the bytes that a read finds from its
    offset on be: complete lines [pre] (none, or bytes that end in a
    terminator), then one line, which is the terminator-free bytes
    [piece] followed by a terminator or, unterminated, by the end of
    the file, and then, after a terminated line, any bytes [post].
    The content of the line is the partial carried over, if the line
    starts the read, and then [piece], with one carriage return before
    the terminator stripped.  Let the content be longer than the byte
    ceiling, which is positive, and let every boundary between two
    read chunks (every [readChunkSize] bytes from the offset) that
    falls strictly inside the line and its terminator find no more
    than the ceiling of the line's content accumulated (carried
    partial included).  Then by the end of that line the read has
    sent exactly one event for it: on the file that ends with the
    line, the read returns without error and sends what it sends on
    the file that ends before the line (nothing, if the line starts
    the read) and then one event, which is not a partial, has the
    content cut to the ceiling and the truncation marker as its text,
    and carries the update flag exactly if the line starts the read
    and continues a displayed partial; no partial is held after it;
    and on the whole file the read sends these events first. *)
Theorem readFromOffset_oversized_line (fs : gmap string node) (path : string)
    (state : fileState) (inc : bool) (head pre piece post : list byte)
    (terminated : bool) :
  let term := if terminated then [LF] else [] in
  let read := λ content : list byte,
    readFromOffset cfg (<[path := Regular content]> fs) path state (len head) inc in
  let carried := if inc && (len (partial state) >? 0)%Z then partial state else [] in
  let held := if decide (pre = []) then carried else [] in
  let line := if terminated then trimTrailingCR (held ++ piece) else held ++ piece in
  let before := if decide (pre = []) then [] else r_sent (read (head ++ pre)) in
  pre = [] ∨ last pre = Some LF →
  LF ∉ piece →
  piece ++ term ≠ [] →
  (terminated = false → post = []) →
  (0 < MaxLineBytes cfg < len line)%Z →
  (∀ k : Z, (0 < k)%Z →
     (len pre < readChunkSize * k < len pre + len (piece ++ term))%Z →
     (len held + (readChunkSize * k - len pre) ≤ MaxLineBytes cfg)%Z) →
  let r := read (head ++ pre ++ piece ++ term) in
  r_err r = None
  ∧ r_sent r = before ++
      [{| Path := displayPath cfg path;
          Text := string_of_list_byte (take (Z.to_nat (MaxLineBytes cfg)) line)
                  +:+ " [truncated]";
          Partial := false;
          Update := partialDisplayed state && inc && (len (partial state) >? 0)%Z
                    && bool_decide (pre = []) |}]
  ∧ r_state r = {| offset := len (head ++ pre ++ piece ++ term);
                   partial := []; partialDisplayed := false |}
  ∧ r_sent r `prefix_of` r_sent (read (head ++ pre ++ piece ++ term ++ post)).
Proof.
  intros term read carried held line before Hpre Hno Hne Hpost Hlong Hbound r.
  set (file1 := head ++ pre ++ piece ++ term).
  set (file2 := head ++ pre ++ piece ++ term ++ post).
  set (hadPartial := partialDisplayed state && inc && (len (partial state) >? 0)%Z).
  assert (Hlook : ∀ content,
            <[path := Regular content]> fs !! path = Some (Regular content)).
  { intros content. apply lookup_insert_eq. }
  assert (Hhead : (0 ≤ len head)%Z) by apply len_nonneg.
  assert (Hpos : Z.to_nat (len head) = length head) by (unfold len; lia).
  destruct (readFromOffset_offset cfg _ path file1 state (len head) inc (Hlook file1))
    as [Herr Hoffset].
  { split; [done|]. unfold file1. rewrite len_app.
    pose proof (len_nonneg (pre ++ piece ++ term)). lia. }
  fold (read file1) in Herr, Hoffset. fold r in Herr, Hoffset.
  set (fuel := S (length file2)).
  assert (Hf1 : length file1 < fuel).
  { unfold fuel, file1, file2, term. rewrite !length_app. lia. }
  destruct (readFromOffset_loop _ path file1 state (len head) inc fuel
              (Hlook file1) Hhead Hf1) as [_ Hr1].
  destruct (readFromOffset_loop _ path file2 state (len head) inc fuel
              (Hlook file2) Hhead (Nat.lt_succ_diag_r _)) as [Hr2 _].
  fold hadPartial in Hr1, Hr2. fold carried in Hr1, Hr2.
  fold (read file1) in Hr1. fold r in Hr1. fold (read file2) in Hr2.
  rewrite Hpos in Hr1, Hr2.
  set (v0 := {| carry := carried; updatedPartial := false; totalRead := 0;
                sent := []; ops := [OpOpen path; OpSeek (len head)] |}) in *.
  assert (Hloop :
    sent (readLoop (displayPath cfg path) hadPartial (MaxLineBytes cfg)
            fuel file1 (length head) v0)
      = before ++
        [{| Path := displayPath cfg path;
            Text := string_of_list_byte
                      (take (Z.to_nat (MaxLineBytes cfg)) line)
                    +:+ " [truncated]";
            Partial := false;
            Update := hadPartial && bool_decide (pre = []) |}]
    ∧ carry (readLoop (displayPath cfg path) hadPartial (MaxLineBytes cfg)
               fuel file1 (length head) v0) = []).
  { unfold before, line, held.
    destruct (decide (pre = [])) as [->|Hne_pre].
    - destruct (readLoop_in_line (displayPath cfg path) hadPartial
                  (MaxLineBytes cfg) terminated fuel file1 (length head) piece
                  (if terminated then trimTrailingCR (carried ++ piece)
                   else carried ++ piece) v0) as [Hs Hc].
      + unfold file1. by rewrite drop_app_length.
      + done.
      + done.
      + unfold fuel, file2, term. rewrite !length_app. lia.
      + done.
      + exact Hlong.
      + intros j Hj Hin. assert (Hb := Hbound j Hj).
        change (len (@nil byte)) with 0%Z in Hb.
        change (carry v0) with carried. fold term in Hin.
        change held with carried in Hb. unfold readChunkSize in *. lia.
      + split; [|exact Hc]. rewrite Hs.
        rewrite bool_decide_eq_true_2 by done.
        change (updatedPartial v0) with false. change (sent v0) with (@nil Line).
        by rewrite !andb_true_r.
    - rewrite bool_decide_eq_false_2 by done. rewrite andb_false_r.
      destruct Hpre as [?|Hlast]; [done|].
      destruct (readFromOffset_loop _ path (head ++ pre) state (len head) inc fuel
                  (Hlook (head ++ pre)) Hhead) as [_ Hr0].
      { unfold fuel, file2, term. rewrite !length_app. lia. }
      fold hadPartial in Hr0. fold carried in Hr0.
      fold (read (head ++ pre)) in Hr0. rewrite Hpos in Hr0. fold v0 in Hr0.
      destruct (readLoop_before_line (displayPath cfg path) hadPartial
                  (MaxLineBytes cfg) terminated fuel (head ++ pre) file1
                  (length head) pre piece
                  (if terminated then trimTrailingCR piece else piece) v0)
        as (Hs & Hc2 & Hc1).
      + by rewrite drop_app_length.
      + unfold file1. by rewrite drop_app_length.
      + done.
      + done.
      + done.
      + unfold fuel, file2, term. rewrite !length_app. lia.
      + apply readLoop_start_flags_ok.
      + done.
      + exact Hlong.
      + intros j Hj Hin. assert (Hb := Hbound j Hj Hin).
        change (len held) with 0%Z in Hb. lia.
      + destruct (Hr0 Hc1) as (-> & _). split; [exact Hs|exact Hc2]. }
  destruct Hloop as [Hsent Hcarry].
  destruct (Hr1 Hcarry) as (Hrs & Hrp & Hrd).
  change (read file1) with r in Hrs, Hrp, Hrd.
  split; [done|]. split; [by rewrite Hrs, Hsent|]. split.
  { assert (Ho : offset (r_state r) = len file1) by exact Hoffset.
    revert Ho Hrp Hrd. destruct (r_state r) as [o p d].
    cbn [offset partial partialDisplayed]. by intros -> -> ->. }
  rewrite Hrs. etrans; [|exact Hr2].
  destruct terminated.
  - apply (readLoop_sent_causal _ _ _ fuel file1 file2 (length head)
             (pre ++ piece ++ [LF]) post v0).
    + unfold file1. by rewrite drop_app_length.
    + unfold file2. rewrite drop_app_length. by rewrite <- !app_assoc.
    + right. by rewrite !app_assoc, last_snoc.
  - unfold file1, file2, term. rewrite (Hpost eq_refl).
    by rewrite !app_nil_r.
Qed.
End OversizedLine.

(** ** The reader on the inputs of the tests *)

(** [TestReadFromOffsetPartialUpdate]: with ["hello"] held and
    displayed, the read of [" world\n"] sends one event, an update. *)
Lemma readFromOffset_update_flag_witness :
  let r := readFromOffset (test_cfg 0) {[ "partial.log" := Regular hello_world ]}
             "partial.log" hello_held 5 true in
  (∀ i e, r_sent r !! i = Some e → Update e = bool_decide (i = 0))
  ∧ (r_err r = None → r_sent r ≠ []).
Proof.
  apply (proj1 (readFromOffset_update_flag (test_cfg 0)
                  {[ "partial.log" := Regular hello_world ]} "partial.log" hello_held 5)).
  - reflexivity.
  - vm_compute. congruence.
Defined.

(** [TestReadNewAfterTruncate]: offset 100, file ["new\n"]. *)
Lemma readNew_truncated_witness :
  let fs : gmap string node :=
    {[ "truncate.log" := Regular (list_byte_of_string "new" ++ [LF]) ]} in
  let r := readNew (test_cfg 0) fs "truncate.log"
             {| offset := 100; partial := []; partialDisplayed := false |} in
  r_err r = None
  ∧ r_sent r = [plainLine "truncate.log" "new"]
  ∧ offset (r_state r) = 4%Z.
Proof.
  destruct (readNew_truncated (test_cfg 0)
              {[ "truncate.log" := Regular (list_byte_of_string "new" ++ [LF]) ]}
              "truncate.log" (list_byte_of_string "new" ++ [LF])
              {| offset := 100; partial := []; partialDisplayed := false |})
    as (Herr & _ & _ & _ & Hoffset & _ & Hlines).
  - apply lookup_singleton_eq.
  - vm_compute. reflexivity.
  - split; [exact Herr|]. split; [|exact Hoffset].
    rewrite Hlines; [reflexivity|]. left. simpl. lia.
Defined.

(** A file of five bytes, all of them read already. *)
Lemma readNew_unchanged_witness :
  readNew (test_cfg 0) {[ "partial.log" := Regular (list_byte_of_string "hello") ]}
          "partial.log" hello_held
    = {| r_err := None; r_state := hello_held; r_sent := [];
         r_ops := [OpStat "partial.log"] |}.
Proof.
  apply (readNew_unchanged (test_cfg 0)
           {[ "partial.log" := Regular (list_byte_of_string "hello") ]}
           "partial.log" (list_byte_of_string "hello")).
  - apply lookup_singleton_eq.
  - reflexivity.
Defined.

(** After the line ["x"], a line of 5000 bytes, longer than a read
    chunk, at a ceiling of 4500 bytes, and a line ["y"] after it: the
    one chunk boundary inside the long line finds 4094 of its bytes
    accumulated, so the line gives one truncated event. *)
Lemma readFromOffset_oversized_line_witness :
  let read := λ content : list byte,
    readFromOffset (test_cfg 4500) (<["long.log" := Regular content]> ∅)
      "long.log" fileState_zero 0 false in
  let r := read ([x78; LF] ++ replicate 5000 x61 ++ [LF]) in
  r_err r = None
  ∧ r_sent r =
      [plainLine "long.log" "x";
       plainLine "long.log"
         (string_of_list_byte (replicate 4500 x61) +:+ " [truncated]")]
  ∧ r_state r = {| offset := 5003; partial := []; partialDisplayed := false |}
  ∧ r_sent r `prefix_of`
      r_sent (read ([x78; LF] ++ replicate 5000 x61 ++ [LF] ++ [x79; LF])).
Proof.
  intros read r.
  destruct (readFromOffset_oversized_line (test_cfg 4500) ∅ "long.log"
              fileState_zero false [] [x78; LF] (replicate 5000 x61)
              [x79; LF] true) as (Herr & Hsent & Hstate & Hprefix).
  - right. reflexivity.
  - intros Hin. apply elem_of_replicate in Hin as [Hin _]. discriminate Hin.
  - intros Hnil. apply app_nil in Hnil as [_ Hnil]. discriminate Hnil.
  - intros Hterm. discriminate Hterm.
  - vm_compute. split; reflexivity.
  - intros k Hk Hin.
    change (2 < 4096 * k < 2 + 5001)%Z in Hin.
    change (0 + (4096 * k - 2) ≤ 4500)%Z. lia.
  - split; [exact Herr|]. split; [|split; [exact Hstate|exact Hprefix]].
    etrans; [exact Hsent|]. vm_compute. reflexivity.
Defined.

(** The chunk boundaries matter wherever the line lies: after 79
    lines of fifty bytes, a line of 150 bytes at a ceiling of 100
    bytes has 146 of its bytes accumulated at the end of the first
    chunk, and is sent as two events: the truncated 146 bytes, and the
    last four. *)
Example readFromOffset_line_across_chunks :
  let pre := mjoin (replicate 79 (replicate 49 x78 ++ [LF])) in
  let read := λ content : list byte,
    readFromOffset (test_cfg 100) (<["long.log" := Regular content]> ∅)
      "long.log" fileState_zero 0 false in
  len pre = 3950%Z
  ∧ r_sent (read (pre ++ replicate 150 x61 ++ [LF]))
    = r_sent (read pre)
      ++ [plainLine "long.log"
            (string_of_list_byte (replicate 100 x61) +:+ " [truncated]");
          plainLine "long.log" "aaaa"].
Proof. split; vm_compute; reflexivity. Qed.

(** C5 as stated fails on a line longer than a read chunk: 4107 bytes
    without a terminator and a ceiling of ten bytes give two truncated
    events, one when the first chunk of 4096 bytes overflows the
    accumulator and one when the remaining eleven bytes do. *)
Lemma readFromOffset_long_line_counterexample :
  let file := replicate 4107 x61 in
  let r := readFromOffset (test_cfg 10) {[ "long.log" := Regular file ]}
             "long.log" fileState_zero 0 false in
  (LF ∉ file)
  ∧ (len file > MaxLineBytes (test_cfg 10))%Z
  ∧ r_sent r = [plainLine "long.log" "aaaaaaaaaa [truncated]";
                plainLine "long.log" "aaaaaaaaaa [truncated]"].
Proof.
  split; [|split].
  - intros Hin. apply elem_of_replicate in Hin as [Hin _]. discriminate Hin.
  - vm_compute. reflexivity.
  - vm_compute. reflexivity.
Qed.

(** ** C6: the text classification *)

Section TextFacts.
Context `{GoStdlib}.

(** C6.  [isTextData] says text for an empty sample; binary for a
    sample with a NUL byte anywhere; otherwise text if the sniffed
    type starts with ["text/"] or is one of [textualTypes]; and
    otherwise text exactly if the sample is valid UTF-8. *)
Theorem isTextData_decision (data : list byte) :
  isTextData data =
    if decide (data = []) then true
    else if decide (x00 ∈ data) then false
    else if HasPrefix (http_DetectContentType data) "text/"
            || bool_decide (http_DetectContentType data ∈ textualTypes)
         then true
         else utf8_Valid data.
Proof.
  unfold isTextData.
  destruct (decide (data = [])) as [->|Hne]; [done|].
  destruct (len data =? 0)%Z eqn:Hlen.
  { apply Z.eqb_eq in Hlen. unfold len in Hlen. destruct data; [done|]. simpl in Hlen. lia. }
  rewrite IndexByte_elem.
  destruct (decide (x00 ∈ data)) as [Hnul|Hnul].
  { by rewrite bool_decide_eq_true_2. }
  rewrite bool_decide_eq_false_2 by done.
  destruct (HasPrefix (http_DetectContentType data) "text/"); [done|]. simpl.
  unfold textualTypes.
  repeat match goal with
         | |- context [decide (http_DetectContentType data = ?s)] =>
             destruct (decide (http_DetectContentType data = s)) as [Heq|?];
             [rewrite Heq; rewrite bool_decide_eq_true_2; [done|];
              rewrite !elem_of_cons; tauto |]
         end.
  rewrite bool_decide_eq_false_2; [done|].
  rewrite !elem_of_cons, elem_of_nil. tauto.
Qed.
End TextFacts.

(** ** C7 and C10: the pattern matcher *)

Section PatternFacts.
Context `{GoStdlib}.

Lemma patternKindFor_spec (value : string) (forceRegex : bool) :
  patternKindFor value forceRegex
    = if forceRegex || HasPrefix value "re:"
      then (patternRegex, TrimPrefix value "re:")
      else (patternGlob, value).
Proof.
  unfold patternKindFor, stripRegexPrefix.
  destruct forceRegex; [done|]. simpl. by destruct (HasPrefix value "re:").
Qed.

Lemma compilePatterns_range_compiled (values : list string) (forceRegex : bool)
    (acc ps : list pattern) :
  Forall (compiled forceRegex) acc →
  compilePatterns_range values forceRegex acc = inl ps →
  Forall (compiled forceRegex) ps.
Proof.
  revert acc. induction values as [|value values IH]; intros acc Hacc Hrun.
  - simpl in Hrun. by injection Hrun as <-.
  - cbn [compilePatterns_range] in Hrun. cbv zeta in Hrun.
    set (v := strings_TrimSpace value) in *.
    destruct (decide (v = "")); [by apply (IH acc)|].
    rewrite patternKindFor_spec in Hrun.
    destruct (forceRegex || HasPrefix v "re:") eqn:Hre.
    + rewrite decide_True in Hrun by done.
      destruct (regexp_Compile (TrimPrefix v "re:")) as [re0|err]; [|done].
      eapply IH; [|exact Hrun]. apply Forall_app. split; [done|].
      apply Forall_singleton. unfold compiled. simpl.
      split; [by eexists|]. by apply orb_true_iff in Hre.
    + rewrite decide_False in Hrun by done.
      destruct (validateGlob (normalizeGlobPattern v)); [done|].
      eapply IH; [|exact Hrun]. apply Forall_app. split; [done|].
      apply Forall_singleton. unfold compiled. simpl.
      apply orb_false_iff in Hre as [-> ->]. done.
Qed.

Lemma compilePatterns_compiled (values : list string) (forceRegex : bool)
    (ps : list pattern) :
  compilePatterns values forceRegex = inl ps → Forall (compiled forceRegex) ps.
Proof. apply compilePatterns_range_compiled. constructor. Qed.

(** On a compiled pattern [matchCompiledPattern] does not panic. *)
Lemma matchCompiledPattern_compiled (forceRegex : bool) (p : pattern)
    (name rel : string) :
  compiled forceRegex p →
  ∃ res, matchCompiledPattern p name rel = Some res
         ∧ matched res = patternMatches p name rel.
Proof.
  unfold compiled, matchCompiledPattern, patternMatches.
  destruct (kind p).
  - intros (_ & _ & _ & ->). destruct (usesPathPattern (glob p)); by eexists.
  - intros [[r ->] _]. by eexists.
Qed.

Lemma includes_range_compiled (forceRegex : bool) (ps : list pattern)
    (name rel : string) (matched0 : bool) :
  Forall (compiled forceRegex) ps →
  includes_range ps name rel matched0
    = Some (existsb (λ p, patternMatches p name rel) ps || matched0).
Proof.
  induction 1 as [|p ps Hp Hps IH]; simpl; [done|].
  destruct (matchCompiledPattern_compiled forceRegex p name rel Hp)
    as ([ok [err|]] & -> & <-); simpl; [done|].
  destruct ok; [done|]. by rewrite IH.
Qed.

Lemma excludes_range_compiled (forceRegex : bool) (ps : list pattern)
    (name rel : string) :
  Forall (compiled forceRegex) ps →
  excludes_range ps name rel
    = Some (negb (existsb (λ p, patternMatches p name rel) ps)).
Proof.
  induction 1 as [|p ps Hp Hps IH]; simpl; [done|].
  destruct (matchCompiledPattern_compiled forceRegex p name rel Hp)
    as ([ok [err|]] & -> & <-); simpl; [done|].
  destruct ok; [done|]. by rewrite IH.
Qed.

(** C7.  With the include and exclude lists that [compilePatterns]
    returns, [shouldInclude] accepts a path exactly if the include
    list is empty or one of its patterns matches, and no pattern of
    the exclude list matches; matching is [patternMatches]: a glob
    with a separator is tried on the slash-normalized relative path,
    a glob without one on the base name. *)
Theorem shouldInclude_decision (root : string) (incValues excValues : list string)
    (forceRegex : bool) (includes excludes : list pattern) (path : string) :
  compilePatterns incValues forceRegex = inl includes →
  compilePatterns excValues forceRegex = inl excludes →
  let name := filepath_Base path in
  let rel := match filepath_Rel root path with
             | inr _ => path
             | inl rel => rel
             end in
  shouldInclude root includes excludes path
    = Some ((negb (nonempty includes) || existsb (λ p, patternMatches p name rel) includes)
            && negb (existsb (λ p, patternMatches p name rel) excludes))
  ∧ Forall (λ p, kind p = patternGlob →
                 glob p = normalizeGlobPattern (raw p)
                 ∧ matchCompiledPattern p name rel
                   = Some (if usesPathPattern (glob p)
                           then path_Match (glob p) (filepath_ToSlash rel)
                           else filepath_Match (glob p) name))
           (includes ++ excludes).
Proof.
  intros Hinc Hexc name rel.
  apply compilePatterns_compiled in Hinc, Hexc. split.
  - unfold shouldInclude. fold name rel.
    rewrite (includes_range_compiled forceRegex includes) by done.
    rewrite (excludes_range_compiled forceRegex excludes) by done.
    rewrite orb_false_r.
    set (hit := existsb _ includes). set (out := existsb _ excludes).
    destruct includes as [|p includes], excludes as [|q excludes];
      try done; by destruct hit.
  - assert (Hall : Forall (compiled forceRegex) (includes ++ excludes))
      by (by apply Forall_app).
    eapply Forall_impl; [exact Hall|].
    intros p Hp Hglob. unfold compiled, matchCompiledPattern in *.
    rewrite Hglob in *. destruct Hp as (_ & _ & Hnorm & ->).
    split; [done|]. by destruct (usesPathPattern (glob p)).
Qed.

(** C10.  A pattern that [compilePatterns] returns is a regular
    expression exactly if the force-regex flag was set or its text
    begins with the marker ["re:"]; and a regular expression is tried
    on the slash-normalized relative path, whatever the base name and
    whatever its text: the outcome of [matchCompiledPattern] does not
    depend on [name]. *)
Theorem regex_matches_relative_path (values : list string) (forceRegex : bool)
    (ps : list pattern) (p : pattern) :
  compilePatterns values forceRegex = inl ps →
  p ∈ ps →
  (kind p = patternRegex ↔ forceRegex = true ∨ HasPrefix (raw p) "re:" = true)
  ∧ (kind p = patternRegex →
     ∃ r, re p = Some r
          ∧ ∀ name rel, matchCompiledPattern p name rel
                        = Some (Regexp_MatchString r (filepath_ToSlash rel), None)).
Proof.
  intros Hps Hp. apply compilePatterns_compiled in Hps.
  rewrite Forall_forall in Hps. specialize (Hps p Hp).
  unfold compiled, matchCompiledPattern in *.
  destruct (kind p).
  - destruct Hps as (-> & Hno & _). split; [|done].
    split; [done|]. intros [?|Hpre]; [done|]. by rewrite Hno in Hpre.
  - destruct Hps as [[r Hr] Hwhy]. split; [done|].
    intros _. exists r. rewrite Hr. done.
Qed.
End PatternFacts.

(** ** C8: pruning below a removed directory *)

Lemma append_cons (c : ascii) (s t : string) : String c s +:+ t = String c (s +:+ t).
Proof. reflexivity. Qed.

Lemma HasPrefix_spec (s prefix : string) :
  HasPrefix s prefix = true ↔ ∃ rest, s = prefix +:+ rest.
Proof.
  unfold HasPrefix. revert s.
  induction prefix as [|c prefix IH]; intros s; simpl.
  - destruct s; split; eauto.
  - destruct s as [|d s]; simpl.
    + split; [done|]. intros [rest Hrest]. by rewrite append_cons in Hrest.
    + destruct (ascii_dec c d) as [->|Hne].
      * rewrite IH. split; intros [rest Hrest]; exists rest;
          rewrite append_cons in *; congruence.
      * split; [done|]. intros [rest Hrest]. rewrite append_cons in Hrest. congruence.
Qed.

Lemma string_app_assoc (a b c : string) : (a +:+ b) +:+ c = a +:+ (b +:+ c).
Proof. induction a as [|x a IH]; [done|]. by rewrite !append_cons, IH. Qed.

Section RemovePathFacts.
Context `{GoStdlib}.

Lemma strictlyUnder_HasPrefix (dir filePath : string) :
  strictlyUnder dir filePath
  ↔ HasPrefix filePath (dir +:+ String os_PathSeparator "") = true.
Proof.
  unfold strictlyUnder. rewrite HasPrefix_spec.
  split; intros [rest ->]; exists rest; by rewrite string_app_assoc.
Qed.

Lemma elem_of_remove (X : gset string) (d dir : string) :
  d ∈ X ∖ {[dir]} ↔ d ∈ X ∧ d ≠ dir.
Proof. by rewrite elem_of_difference, elem_of_singleton. Qed.

(** The range loop deletes the visited keys that have the prefix and
    nothing else. *)
Lemma prune_range_lookup (prefix : string) (keys : list string)
    (m : gmap string fileState) (k : string) :
  prune_range prefix keys m !! k
    = if HasPrefix k prefix && bool_decide (k ∈ keys) then None else m !! k.
Proof.
  unfold prune_range. revert m.
  induction keys as [|x keys IH]; intros m; simpl.
  - by rewrite andb_false_r.
  - rewrite IH. destruct (HasPrefix k prefix) eqn:Hk; simpl.
    + destruct (decide (k = x)) as [->|Hne].
      * rewrite Hk, lookup_delete_eq.
        rewrite (bool_decide_eq_true_2 (x ∈ x :: keys)) by (by left).
        by destruct (bool_decide (x ∈ keys)).
      * assert (Hiff : bool_decide (k ∈ x :: keys) = bool_decide (k ∈ keys)).
        { apply bool_decide_ext. rewrite elem_of_cons. tauto. }
        rewrite Hiff. destruct (bool_decide (k ∈ keys)); [done|].
        destruct (HasPrefix x prefix); [|done]. by rewrite lookup_delete_ne.
    + destruct (HasPrefix x prefix) eqn:Hx; [|done].
      rewrite lookup_delete_ne; [done|]. intros ->. congruence.
Qed.

(** C8.  Removing a watched directory ends its subscription and takes
    it out of the watch set, leaves every other watch as it is,
    deletes the state of every tracked file whose path lies strictly
    under the directory, and keeps the state of every other file. *)
Theorem removePath_prunes (t : Tailer) (dir : string) :
  dir ∈ watchedDir t →
  let t' := removePath t dir in
  (dir ∉ watcher t')
  ∧ (dir ∉ watchedDir t')
  ∧ (∀ d, d ≠ dir → (d ∈ watchedDir t' ↔ d ∈ watchedDir t)
                    ∧ (d ∈ watcher t' ↔ d ∈ watcher t))
  ∧ (∀ filePath, strictlyUnder dir filePath → states t' !! filePath = None)
  ∧ (∀ filePath, ¬ strictlyUnder dir filePath →
       states t' !! filePath = states t !! filePath).
Proof.
  intros Hdir t'. subst t'. unfold removePath.
  rewrite decide_True by done. simpl.
  split; [rewrite elem_of_remove; tauto|].
  split; [rewrite elem_of_remove; tauto|].
  split; [intros d Hd; rewrite !elem_of_remove; tauto|].
  split; intros filePath Hunder; rewrite prune_range_lookup;
    rewrite strictlyUnder_HasPrefix in Hunder.
  - rewrite Hunder. simpl.
    destruct (states t !! filePath) as [st|] eqn:Hst; [|by case_bool_decide].
    rewrite bool_decide_eq_true_2; [done|].
    apply list_elem_of_fmap. exists (filePath, st). split; [done|].
    by apply elem_of_map_to_list.
  - apply not_true_is_false in Hunder. by rewrite Hunder.
Qed.

(** A path that is not a watched directory is dropped from the
    tracked files, and nothing else changes. *)
Lemma removePath_file (t : Tailer) (path : string) :
  path ∉ watchedDir t →
  removePath t path
    = {| watcher := watcher t; watchedDir := watchedDir t;
         states := delete path (states t) |}.
Proof. intros Hno. unfold removePath. by rewrite decide_False. Qed.
End RemovePathFacts.

(** ** The matcher and the pruning on concrete inputs *)

(** Include ["app.log"] and ["logs/app.log"], exclude ["logs/app.log"]:
    [/tmp/app.log] is accepted by its base name. *)
Lemma shouldInclude_decision_witness :
  shouldInclude "/tmp" [glob_app_log; glob_logs_app_log] [glob_logs_app_log]
                "/tmp/app.log" = Some true.
Proof.
  destruct (shouldInclude_decision "/tmp" ["app.log"; "logs/app.log"] ["logs/app.log"]
              false [glob_app_log; glob_logs_app_log] [glob_logs_app_log]
              "/tmp/app.log") as [Hdecision _].
  - reflexivity.
  - reflexivity.
  - exact Hdecision.
Defined.

(** The regular expression ["re:logs/app.log"] is tried on the relative
    path, under any base name. *)
Lemma regex_matches_relative_path_witness :
  ∃ r, re regex_logs_app_log = Some r
       ∧ ∀ name rel, matchCompiledPattern regex_logs_app_log name rel
                     = Some (Regexp_MatchString r (filepath_ToSlash rel), None).
Proof.
  destruct (regex_matches_relative_path ["re:logs/app.log"; "app.log"] false
              [regex_logs_app_log; glob_app_log] regex_logs_app_log)
    as [_ Hmatch].
  - reflexivity.
  - apply list_elem_of_here.
  - apply Hmatch. reflexivity.
Defined.

(** Removing the watched [/tmp/logs]. *)
Lemma removePath_prunes_witness :
  let t' := removePath logs_watched "/tmp/logs" in
  ("/tmp/logs" ∉ watchedDir t')
  ∧ states t' !! "/tmp/logs/app.log" = None
  ∧ states t' !! "/tmp/root.log" = Some fileState_zero.
Proof.
  destruct (removePath_prunes logs_watched "/tmp/logs")
    as (_ & Hwatch & _ & Hunder & Hother).
  - unfold logs_watched. cbn [watchedDir]. apply elem_of_singleton. reflexivity.
  - split; [exact Hwatch|]. split.
    + apply Hunder. by exists "app.log".
    + rewrite Hother; [reflexivity|].
      intros [rest Hrest]. discriminate Hrest.
Defined.

(** ** More about the line splitter and the seek-tail *)

Lemma trimTrailingCR_elem (l : list byte) (x : byte) :
  x ∈ trimTrailingCR l → x ∈ l.
Proof.
  destruct l as [|b l' _] using rev_ind; [done|].
  destruct (decide (b = CR)) as [->|Hb].
  - rewrite trimTrailingCR_snoc_CR, elem_of_app. tauto.
  - by rewrite trimTrailingCR_snoc_other.
Qed.

(** [splitLines] returns one line for every terminator of its input,
    and neither a line nor the partial contains a terminator. *)
Theorem splitLines_terminators (data : list byte) :
  len (fst (splitLines data)) = CountByte data LF
  ∧ Forall (λ line, LF ∉ list_byte_of_string line) (fst (splitLines data))
  ∧ (LF ∉ snd (splitLines data)).
Proof.
  rewrite splitLines_pieces. simpl. unfold completeLines, fragment.
  destruct (pieces_sound data) as (_ & Hall & Hrest).
  split; [|split].
  - rewrite <- pieces_length. unfold len. by rewrite length_map.
  - apply Forall_map. eapply Forall_impl; [exact Hall|].
    intros l Hl. simpl. rewrite list_byte_of_string_of_list_byte.
    intros Hin. by apply Hl, trimTrailingCR_elem.
  - intros Hin. by apply Hrest, trimTrailingCR_elem.
Qed.

Lemma lastLines_len {A} (k : Z) (l : list A) :
  (0 ≤ k)%Z → (len (lastLines k l) ≤ k)%Z.
Proof.
  intros Hk. unfold lastLines, len. rewrite length_drop. lia.
Qed.

Lemma tailLastLines_partial_noLF (fs : gmap string node) (path : string) (n : Z) :
  LF ∉ snd (fst (tailLastLines fs path n)).
Proof.
  destruct (n <=? 0)%Z eqn:Hn.
  { unfold tailLastLines. rewrite Hn. apply not_elem_of_nil. }
  apply Z.leb_gt in Hn.
  destruct (fs !! path) as [[file|size]|] eqn:Hfs.
  - rewrite (tailLastLines_regular fs path file n Hfs) by lia.
    destruct (decide (trimTrailingCR (fragment file) = [])); simpl;
      [apply not_elem_of_nil|].
    destruct (pieces_sound file) as (_ & _ & Hrest).
    intros Hin. by apply Hrest, trimTrailingCR_elem.
  - unfold tailLastLines. rewrite Hfs.
    destruct (n <=? 0)%Z; [apply not_elem_of_nil|].
    destruct (size =? 0)%Z; [apply not_elem_of_nil|].
    destruct (size >? 0)%Z; apply not_elem_of_nil.
  - unfold tailLastLines. rewrite Hfs.
    destruct (n <=? 0)%Z; apply not_elem_of_nil.
Qed.

(** [tailLastLines] never returns more than [n] lines, and at most
    [n-1] when it returns a partial; the partial has no terminator in
    it; and with an error nothing is returned. *)
Theorem tailLastLines_bounds (fs : gmap string node) (path : string) (n : Z) :
  let got := tailLastLines fs path n in
  (len (fst (fst got)) ≤ Z.max 0 n)%Z
  ∧ (snd (fst got) ≠ [] → (len (fst (fst got)) ≤ n - 1)%Z)
  ∧ (LF ∉ snd (fst got))
  ∧ (snd got ≠ None → fst got = ([], [])).
Proof.
  intros got. subst got.
  assert (Hnone : ∀ err : option error,
            let got : list string * list byte * option error := ([], [], err) in
            (len (fst (fst got)) ≤ Z.max 0 n)%Z
            ∧ (snd (fst got) ≠ [] → (len (fst (fst got)) ≤ n - 1)%Z)
            ∧ (LF ∉ snd (fst got))
            ∧ (snd got ≠ None → fst got = ([], []))).
  { intros err. simpl. unfold len. simpl.
    split; [lia|]. split; [done|]. split; [apply not_elem_of_nil|done]. }
  destruct (n <=? 0)%Z eqn:Hn.
  { unfold tailLastLines. rewrite Hn. apply Hnone. }
  apply Z.leb_gt in Hn.
  destruct (fs !! path) as [[file|size]|] eqn:Hfs.
  - rewrite (tailLastLines_regular fs path file n Hfs) by lia.
    destruct (decide (trimTrailingCR (fragment file) = [])) as [Hnil|Hne]; simpl.
    + pose proof (lastLines_len n (completeLines file)).
      split; [lia|]. split; [done|]. split; [apply not_elem_of_nil|done].
    + pose proof (lastLines_len (n - 1) (completeLines file)).
      split; [lia|]. split; [lia|]. split; [|done].
      destruct (pieces_sound file) as (_ & _ & Hrest).
      intros Hin. by apply Hrest, trimTrailingCR_elem.
  - unfold tailLastLines. rewrite Hfs.
    destruct (n <=? 0)%Z; [apply Hnone|].
    destruct (size =? 0)%Z; [apply Hnone|].
    destruct (size >? 0)%Z; apply Hnone.
  - unfold tailLastLines. rewrite Hfs.
    destruct (n <=? 0)%Z; apply Hnone.
Qed.

(** ** What the byte ceiling bounds, and what a held partial never holds *)

Lemma string_length_append (a b : string) :
  String.length (a +:+ b) = String.length a + String.length b.
Proof. induction a as [|c a IH]; [done|]. rewrite append_cons. simpl. by rewrite IH. Qed.

Lemma string_length_of_bytes (l : list byte) :
  String.length (string_of_list_byte l) = length l.
Proof.
  induction l as [|b l IH]; [done|].
  change (S (String.length (string_of_list_byte l)) = S (length l)). by rewrite IH.
Qed.

Lemma truncateLineBytes_length (data : list byte) (max : Z) :
  (0 < max)%Z →
  String.length (fst (truncateLineBytes data max)) ≤ Z.to_nat max + markerLength.
Proof.
  intros Hmax. unfold truncateLineBytes.
  destruct ((max >? 0)%Z && (len data >? max)%Z) eqn:Hc; simpl.
  - rewrite string_length_append, string_length_of_bytes, length_take.
    unfold markerLength. lia.
  - rewrite string_length_of_bytes.
    apply andb_false_iff in Hc as [Hc|Hc]; rewrite Z.gtb_ltb in Hc;
      apply Z.ltb_ge in Hc; unfold len in Hc; lia.
Qed.

Section Bounds.
Variable pathDisplay : string.
Variable hadPartial : bool.
Variable maxBytes : Z.
Hypothesis maxBytes_pos : (0 < maxBytes)%Z.

Definition text_bounded (e : Line) : Prop :=
  String.length (Text e) ≤ Z.to_nat maxBytes + markerLength.

Lemma emit_bounded (data : list byte) (isPartial : bool) (v : readLoop_vars)
    (newCarry : list byte) :
  Forall text_bounded (sent v) →
  Forall text_bounded
    (sent (emit pathDisplay hadPartial (fst (truncateLineBytes data maxBytes))
                isPartial v newCarry)).
Proof.
  intros Hv. simpl. apply Forall_app. split; [done|].
  apply Forall_singleton. unfold text_bounded. simpl.
  by apply truncateLineBytes_length.
Qed.

Lemma scanChunk_bounded (fuel : nat) (data : list byte) (v : readLoop_vars) :
  Forall text_bounded (sent v) →
  Forall text_bounded (sent (scanChunk pathDisplay hadPartial maxBytes fuel data v)).
Proof.
  revert data v. induction fuel as [|fuel IH]; intros data v Hv; [done|].
  cbn [scanChunk].
  destruct (len data >? 0)%Z; [|done].
  destruct (IndexByte data LF <? 0)%Z.
  - destruct ((maxBytes >? 0)%Z && (len (carry v ++ data) >? maxBytes)%Z); [|done].
    pose proof (emit_bounded (carry v ++ data) false v [] Hv) as Hemit.
    destruct (truncateLineBytes (carry v ++ data) maxBytes) as [text [|]]; done.
  - pose proof (emit_bounded (trimTrailingCR (carry v ++ take (Z.to_nat (IndexByte data LF)) data))
                  false v [] Hv) as Hemit.
    destruct (truncateLineBytes _ maxBytes) as [text trunc]. by apply IH.
Qed.

Lemma readLoop_bounded (fuel : nat) (file : list byte) (pos : nat) (v : readLoop_vars) :
  Forall text_bounded (sent v) →
  Forall text_bounded (sent (readLoop pathDisplay hadPartial maxBytes fuel file pos v)).
Proof.
  revert pos v. induction fuel as [|fuel IH]; intros pos v Hv; [done|].
  cbn [readLoop]. cbv zeta.
  destruct (len (take (Z.to_nat readChunkSize) (drop pos file)) >? 0)%Z; [|done].
  by apply IH, scanChunk_bounded.
Qed.
End Bounds.

Section NoTerminator.
Variable pathDisplay : string.
Variable hadPartial : bool.
Variable maxBytes : Z.

Lemma scanChunk_carry_noLF (fuel : nat) (data : list byte) (v : readLoop_vars) :
  LF ∉ carry v →
  LF ∉ carry (scanChunk pathDisplay hadPartial maxBytes fuel data v).
Proof.
  revert data v. induction fuel as [|fuel IH]; intros data v Hv; [done|].
  cbn [scanChunk].
  destruct (len data >? 0)%Z; [|done].
  destruct (IndexByte data LF <? 0)%Z eqn:Hidx.
  - assert (Hno : LF ∉ carry v ++ data).
    { rewrite elem_of_app. intros [Hin|Hin]; [done|].
      pose proof (IndexByte_elem data LF) as He.
      rewrite bool_decide_eq_true_2 in He by done.
      apply Z.geb_le in He. apply Z.ltb_lt in Hidx. lia. }
    destruct ((maxBytes >? 0)%Z && (len (carry v ++ data) >? maxBytes)%Z); [|done].
    destruct (truncateLineBytes (carry v ++ data) maxBytes) as [text [|]]; [|done].
    apply not_elem_of_nil.
  - destruct (truncateLineBytes _ maxBytes) as [text trunc].
    apply IH. apply not_elem_of_nil.
Qed.

Lemma readLoop_carry_noLF (fuel : nat) (file : list byte) (pos : nat)
    (v : readLoop_vars) :
  LF ∉ carry v →
  LF ∉ carry (readLoop pathDisplay hadPartial maxBytes fuel file pos v).
Proof.
  revert pos v. induction fuel as [|fuel IH]; intros pos v Hv; [done|].
  cbn [readLoop]. cbv zeta.
  destruct (len (take (Z.to_nat readChunkSize) (drop pos file)) >? 0)%Z; [|done].
  by apply IH, scanChunk_carry_noLF.
Qed.
End NoTerminator.

Section ReaderBounds.
Context `{GoStdlib}.
Variable cfg : Config.

(** With a positive byte ceiling, the text of every event that a read
    sends has at most the ceiling and the twelve bytes of the marker,
    and the partial that a read leaves held has at most the ceiling. *)
Theorem readFromOffset_bounded (fs : gmap string node) (path : string)
    (state : fileState) (offset0 : Z) (inc : bool) :
  (0 < MaxLineBytes cfg)%Z →
  let r := readFromOffset cfg fs path state offset0 inc in
  Forall (λ e, String.length (Text e) ≤ Z.to_nat (MaxLineBytes cfg) + 12) (r_sent r)
  ∧ (r_err r = None → (len (partial (r_state r)) ≤ MaxLineBytes cfg)%Z).
Proof.
  intros Hmax r. subst r.
  change (λ e, String.length (Text e) ≤ Z.to_nat (MaxLineBytes cfg) + 12)
    with (text_bounded (MaxLineBytes cfg)).
  unfold readFromOffset.
  destruct (fs !! path) as [nd|]; [|split; [constructor|done]].
  destruct (offset0 <? 0)%Z; [split; [constructor|done]|].
  destruct nd as [file|size]; [|split; [constructor|done]].
  set (v0 := {| carry := _; updatedPartial := false; totalRead := 0;
                sent := []; ops := _ |}).
  set (had := partialDisplayed state && inc && (len (partial state) >? 0)%Z).
  assert (Hv : Forall (text_bounded (MaxLineBytes cfg))
                 (sent (readLoop (displayPath cfg path) had (MaxLineBytes cfg)
                          (S (length file)) file (Z.to_nat offset0) v0))).
  { apply readLoop_bounded; [exact Hmax | constructor]. }
  set (v := readLoop _ _ _ _ _ _ v0) in *.
  clearbody v. clear v0.
  destruct (len (carry v) >? 0)%Z.
  - assert (Hemit := emit_bounded (displayPath cfg path) had (MaxLineBytes cfg) Hmax
                       (trimTrailingCR (carry v))).
    destruct (truncateLineBytes (trimTrailingCR (carry v)) (MaxLineBytes cfg))
      as [text trunc] eqn:Htr.
    cbn [fst] in Hemit. cbn [r_sent r_err r_state].
    split; [exact (Hemit (negb trunc) v (carry v) Hv)|].
    intros _. unfold truncateLineBytes in Htr.
    destruct ((MaxLineBytes cfg >? 0)%Z
              && (len (trimTrailingCR (carry v)) >? MaxLineBytes cfg)%Z) eqn:Hc;
      injection Htr as _ <-; cbn [partial app].
    + unfold len. cbn [length]. lia.
    + apply andb_false_iff in Hc as [Hc|Hc]; rewrite Z.gtb_ltb in Hc;
        apply Z.ltb_ge in Hc; lia.
  - cbn [r_sent r_err r_state partial]. split; [exact Hv|].
    intros _. unfold len. cbn [length]. lia.
Qed.

(** A held partial never contains a line terminator: [readFromOffset],
    [readNew] and [initFile] all keep it so. *)
Theorem partial_without_terminator (fs : gmap string node) (path : string)
    (state : fileState) (offset0 : Z) (inc : bool) :
  LF ∉ partial state →
  (LF ∉ partial (r_state (readFromOffset cfg fs path state offset0 inc)))
  ∧ (LF ∉ partial (r_state (readNew cfg fs path state)))
  ∧ (LF ∉ partial (snd (fst (initFile cfg fs path state)))).
Proof.
  intros Hstate.
  assert (Hread : ∀ st off i, LF ∉ partial st →
            LF ∉ partial (r_state (readFromOffset cfg fs path st off i))).
  { intros st off i Hst. unfold readFromOffset.
    destruct (fs !! path) as [nd|]; [|done].
    destruct (off <? 0)%Z; [done|].
    destruct nd as [file|size]; [|done].
    set (v0 := {| carry := _; updatedPartial := false; totalRead := 0;
                  sent := []; ops := _ |}).
    assert (Hv0 : LF ∉ carry v0).
    { simpl. destruct (i && (len (partial st) >? 0)%Z); [done|apply not_elem_of_nil]. }
    pose proof (readLoop_carry_noLF (displayPath cfg path)
                  (partialDisplayed st && i && (len (partial st) >? 0)%Z)
                  (MaxLineBytes cfg) (S (length file)) file (Z.to_nat off) v0 Hv0) as Hv.
    set (v := readLoop _ _ _ _ _ _ v0) in *.
    destruct (len (carry v) >? 0)%Z; [|apply not_elem_of_nil].
    destruct (truncateLineBytes _ _) as [text [|]]; simpl; [apply not_elem_of_nil|].
    intros Hin. by apply Hv, trimTrailingCR_elem. }
  split; [by apply Hread|]. split.
  - unfold readNew. destruct (os_Stat fs path) as [info|err]; [|done].
    destruct (negb (Mode_IsRegular info)); [done|].
    destruct (Size info =? offset state)%Z; [done|]. simpl.
    apply Hread. destruct (Size info <? offset state)%Z; [apply not_elem_of_nil|done].
  - unfold initFile. destruct (FromStart cfg); [by apply Hread|].
    pose proof (tailLastLines_partial_noLF fs path (N cfg)) as Htail.
    destruct (N cfg >? 0)%Z.
    + destruct (tailLastLines fs path (N cfg)) as [[lines part] [e|]]; simpl in Htail;
        [done|].
      destruct (len part >? 0)%Z; destruct (os_Stat fs path); done.
    + destruct (os_Stat fs path); done.
Qed.
End ReaderBounds.

(** ** How reads compose *)

Lemma completedTexts_app (a b : list Line) :
  completedTexts (a ++ b) = completedTexts a ++ completedTexts b.
Proof. unfold completedTexts. by rewrite List.filter_app, map_app. Qed.

Lemma completedTexts_lineEvents (pathDisplay : string) (had : bool) (k : nat)
    (ls : list (list byte)) :
  completedTexts (lineEvents pathDisplay had k ls)
    = map (λ l, string_of_list_byte (trimTrailingCR l)) ls.
Proof.
  revert k. induction ls as [|l ls IH]; intros k; [done|].
  unfold completedTexts in *. simpl. by rewrite IH.
Qed.

Section Compose.
Context `{GoStdlib}.
Variable cfg : Config.

Lemma readNew_reaches_end (fs : gmap string node) (path : string)
    (file : list byte) (state : fileState) :
  fs !! path = Some (Regular file) →
  (0 ≤ offset state)%Z →
  r_err (readNew cfg fs path state) = None
  ∧ offset (r_state (readNew cfg fs path state)) = len file.
Proof.
  intros Hfs Hoff. unfold readNew, os_Stat. rewrite Hfs. simpl.
  destruct (len file =? offset state)%Z eqn:Heq.
  { apply Z.eqb_eq in Heq. by split. }
  apply Z.eqb_neq in Heq. simpl.
  destruct (len file <? offset state)%Z eqn:Hlt.
  - apply (readFromOffset_offset cfg fs path file _ 0 true Hfs).
    pose proof (len_nonneg file). simpl. lia.
  - apply Z.ltb_ge in Hlt.
    apply (readFromOffset_offset cfg fs path file state (offset state) true Hfs). lia.
Qed.

(** After [readNew] on a regular file the stored offset is the size of
    the file, whatever the offset was before: behind, at, or (after a
    truncation) beyond the end. *)
Theorem readNew_offset (fs : gmap string node) (path : string)
    (file : list byte) (state : fileState) :
  fs !! path = Some (Regular file) →
  (0 ≤ offset state)%Z →
  let r := readNew cfg fs path state in
  r_err r = None ∧ offset (r_state r) = len file.
Proof. intros Hfs Hoff r. by apply readNew_reaches_end. Qed.

Lemma readNew_at_end (fs : gmap string node) (path : string)
    (file : list byte) (state : fileState) :
  fs !! path = Some (Regular file) →
  offset state = len file →
  readNew cfg fs path state
    = {| r_err := None; r_state := state; r_sent := []; r_ops := [OpStat path] |}.
Proof.
  intros Hfs Hoff. unfold readNew, os_Stat. rewrite Hfs. simpl.
  by rewrite Hoff, Z.eqb_refl.
Qed.

(** A second [readNew] on a file that has not changed sends nothing
    and leaves the state of the first: no line is delivered twice. *)
Theorem readNew_twice (fs : gmap string node) (path : string)
    (file : list byte) (state : fileState) :
  fs !! path = Some (Regular file) →
  (0 ≤ offset state)%Z →
  let r1 := readNew cfg fs path state in
  let r2 := readNew cfg fs path (r_state r1) in
  r_sent r2 = [] ∧ r_state r2 = r_state r1 ∧ r_err r2 = None.
Proof.
  intros Hfs Hoff r1 r2.
  destruct (readNew_reaches_end fs path file state Hfs Hoff) as [_ Hend].
  fold r1 in Hend. unfold r2.
  by rewrite (readNew_at_end fs path file (r_state r1) Hfs Hend).
Qed.
End Compose.

Section Incremental.
Context `{GoStdlib}.
Variable cfg : Config.

(** Reading a file in two steps gives what reading it at once gives.
    Let a first read from the start see the content [a], and, after [b]
    was appended, let [readNew] continue from the state that the first
    read left.  If [a] does not end in a carriage return after its last
    terminator, and the whole stays within the byte ceiling (or the
    ceiling is off), then the complete lines of the two reads together
    are the complete lines of [a ++ b], in order, and the partial held
    at the end is the unterminated fragment of [a ++ b]. *)
Theorem readNew_continues (fs1 fs2 : gmap string node) (path : string)
    (a b : list byte) :
  fs1 !! path = Some (Regular a) →
  fs2 !! path = Some (Regular (a ++ b)) →
  trimTrailingCR (fragment a) = fragment a →
  (MaxLineBytes cfg ≤ 0 ∨ len (a ++ b) ≤ MaxLineBytes cfg)%Z →
  let r1 := readFromOffset cfg fs1 path fileState_zero 0 false in
  let r2 := readNew cfg fs2 path (r_state r1) in
  completedTexts (r_sent r1) ++ completedTexts (r_sent r2) = completeLines (a ++ b)
  ∧ partial (r_state r2) = trimTrailingCR (fragment (a ++ b))
  ∧ offset (r_state r2) = len (a ++ b).
Proof.
  intros Hfs1 Hfs2 Hcr Hshort r1 r2.
  rewrite len_app in Hshort.
  pose proof (len_nonneg a) as Ha. pose proof (len_nonneg b) as Hb.
  assert (Hshort_a : (MaxLineBytes cfg ≤ 0 ∨ len a ≤ MaxLineBytes cfg)%Z) by lia.
  destruct (readFromOffset_untruncated cfg fs1 path a fileState_zero 0 false Hfs1)
    as (Hsent1 & Hpart1 & Hdisp1); [lia | apply not_elem_of_nil | exact Hshort_a |].
  destruct (readFromOffset_offset cfg fs1 path a fileState_zero 0 false Hfs1)
    as [_ Hoff1]; [lia|].
  fold r1 in Hsent1, Hpart1, Hdisp1, Hoff1. simpl in Hsent1, Hpart1, Hdisp1.
  change (drop (Z.to_nat 0) a) with a in Hsent1, Hpart1, Hdisp1.
  fold (fragment a) in Hsent1, Hpart1, Hdisp1. rewrite Hcr in Hpart1.
  assert (Htexts1 : completedTexts (r_sent r1) = completeLines a).
  { rewrite Hsent1, completedTexts_app, completedTexts_lineEvents.
    destruct (decide (fragment a = [])); by rewrite app_nil_r. }
  destruct (pieces_sound a) as (_ & _ & Hfrag).
  pose proof (pieces_fragment_length a) as Hflen. fold (fragment a) in Hfrag, Hflen.
  assert (Hwhole : pieces (a ++ b)
            = (fst (pieces a) ++ fst (pieces (fragment a ++ b)),
               snd (pieces (fragment a ++ b)))) by apply pieces_app.
  destruct (decide (b = [])) as [->|Hne].
  { (* nothing was appended: the second read is at the end *)
    rewrite app_nil_r in *.
    assert (Hr2 : r2 = {| r_err := None; r_state := r_state r1; r_sent := [];
                          r_ops := [OpStat path] |}).
    { unfold r2, readNew, os_Stat. rewrite Hfs2. simpl. by rewrite Hoff1, Z.eqb_refl. }
    rewrite Hr2. simpl. rewrite Htexts1, Hpart1, Hoff1, Hcr.
    unfold completedTexts. simpl. by rewrite app_nil_r. }
  assert (Hlenb : (0 < len b)%Z).
  { unfold len. destruct b; [done|]. simpl. lia. }
  assert (Hr2 : r2 = let r := readFromOffset cfg fs2 path (r_state r1) (len a) true in
                     {| r_err := r_err r; r_state := r_state r; r_sent := r_sent r;
                        r_ops := OpStat path :: r_ops r |}).
  { unfold r2, readNew, os_Stat. rewrite Hfs2. simpl. rewrite Hoff1, len_app.
    destruct (len a + len b =? len a)%Z eqn:Heq; [apply Z.eqb_eq in Heq; lia|].
    destruct (len a + len b <? len a)%Z eqn:Hlt; [apply Z.ltb_lt in Hlt; lia|].
    simpl. by rewrite Hoff1. }
  assert (Hheld : (if true && (len (partial (r_state r1)) >? 0)%Z
                   then partial (r_state r1) else []) = fragment a).
  { rewrite Hpart1. simpl. destruct (len (fragment a) >? 0)%Z eqn:Hl; [done|].
    by apply len_nil_iff in Hl. }
  assert (Hdrop : drop (Z.to_nat (len a)) (a ++ b) = b).
  { unfold len. rewrite Nat2Z.id. apply drop_app_length. }
  destruct (readFromOffset_untruncated cfg fs2 path (a ++ b) (r_state r1) (len a) true Hfs2)
    as (Hsent2 & Hpart2 & _).
  - lia.
  - by rewrite Hheld.
  - rewrite Hheld, Hdrop, len_app. lia.
  - destruct (readFromOffset_offset cfg fs2 path (a ++ b) (r_state r1) (len a) true Hfs2)
      as [_ Hoff2]; [rewrite len_app; lia|].
    rewrite Hheld, Hdrop in Hsent2, Hpart2.
    rewrite Hr2. simpl. rewrite Htexts1, Hsent2, Hpart2, Hoff2.
    rewrite completedTexts_app, completedTexts_lineEvents.
    unfold completeLines, fragment. rewrite Hwhole. simpl. rewrite map_app.
    unfold fragment. split; [|done].
    match goal with
    | |- context [completedTexts ?x] =>
        assert (Hp : completedTexts x = [])
          by (destruct (decide (snd (pieces (snd (pieces a) ++ b)) = [])); reflexivity);
        rewrite Hp
    end.
    by rewrite app_nil_r.
Qed.
End Incremental.

(** ** Registration: [initFile] *)

Section InitFileFacts.
Context `{GoStdlib}.
Variable cfg : Config.

Lemma initFile_regular (fs : gmap string node) (path : string)
    (file : list byte) (state : fileState) :
  fs !! path = Some (Regular file) →
  fst (fst (initFile cfg fs path state)) = None
  ∧ offset (snd (fst (initFile cfg fs path state))) = len file.
Proof.
  intros Hfs. unfold initFile.
  destruct (FromStart cfg).
  { simpl. apply (readFromOffset_offset cfg fs path file state 0 false Hfs).
    pose proof (len_nonneg file). lia. }
  unfold os_Stat. rewrite Hfs.
  destruct (N cfg >? 0)%Z eqn:Hn; [|done].
  apply Z.gtb_lt in Hn.
  rewrite (tailLastLines_regular fs path file (N cfg) Hfs) by lia.
  destruct (decide (trimTrailingCR (fragment file) = [])) as [Hnil|Hne]; simpl.
  - done.
  - destruct (len (trimTrailingCR (fragment file)) >? 0)%Z; done.
Qed.

(** However a regular file is initialised (from the start, by the
    seek-tail, or at its end), [initFile] succeeds and leaves the
    offset at the size of the file, so that a [readNew] that follows
    without a change of the file sends nothing: the lines shown at
    registration are not shown again. *)
Theorem initFile_then_readNew (fs : gmap string node) (path : string)
    (file : list byte) (state : fileState) :
  fs !! path = Some (Regular file) →
  let init := initFile cfg fs path state in
  let r := readNew cfg fs path (snd (fst init)) in
  fst (fst init) = None
  ∧ offset (snd (fst init)) = len file
  ∧ r_sent r = []
  ∧ r_state r = snd (fst init).
Proof.
  intros Hfs init r.
  destruct (initFile_regular fs path file state Hfs) as [Herr Hoff].
  fold init in Herr, Hoff. split; [done|]. split; [done|].
  unfold r. by rewrite (readNew_at_end cfg fs path file _ Hfs Hoff).
Qed.

(** The seek-tail at registration ([FromStart] off, [N > 0]) of a
    regular file sends the last complete lines as plain lines and then,
    if the file ends in an unterminated fragment (more than a lone
    carriage return), that fragment as a partial, which it holds as
    displayed; these are at most [N] events, none of them an update. *)
Theorem initFile_seek_tail (fs : gmap string node) (path : string)
    (file : list byte) (state : fileState) :
  fs !! path = Some (Regular file) →
  FromStart cfg = false →
  (N cfg > 0)%Z →
  let init := initFile cfg fs path state in
  let part := trimTrailingCR (fragment file) in
  (len (snd init) ≤ N cfg)%Z
  ∧ Forall (λ e, Update e = false) (snd init)
  ∧ (part = [] →
     snd init = map (plainLine (displayPath cfg path))
                    (lastLines (N cfg) (completeLines file))
     ∧ partial (snd (fst init)) = partial state
     ∧ partialDisplayed (snd (fst init)) = partialDisplayed state)
  ∧ (part ≠ [] →
     snd init = map (plainLine (displayPath cfg path))
                    (lastLines (N cfg - 1) (completeLines file))
                ++ [partialLine (displayPath cfg path) (string_of_list_byte part)]
     ∧ partial (snd (fst init)) = part
     ∧ partialDisplayed (snd (fst init)) = true).
Proof.
  intros Hfs Hfrom Hn init part. subst init. unfold initFile.
  rewrite Hfrom. unfold os_Stat. rewrite Hfs.
  destruct (N cfg >? 0)%Z eqn:Hpos; [|rewrite Z.gtb_ltb in Hpos; apply Z.ltb_ge in Hpos; lia].
  rewrite (tailLastLines_regular fs path file (N cfg) Hfs) by lia.
  fold part.
  assert (Hplain : ∀ ls, Forall (λ e, Update e = false)
                           (map (plainLine (displayPath cfg path)) ls)).
  { intros ls. apply Forall_map. by apply Forall_true. }
  destruct (decide (part = [])) as [Hnil|Hne]; simpl.
  - pose proof (lastLines_len (N cfg) (completeLines file)) as Hlen.
    split; [unfold len in *; rewrite length_map; lia|].
    split; [apply Hplain|]. split; [done|]. intros Hne. by destruct Hne.
  - destruct (len part >? 0)%Z eqn:Hl; [|by apply len_nil_iff in Hl]. simpl.
    pose proof (lastLines_len (N cfg - 1) (completeLines file)) as Hlen.
    split; [unfold len in *; rewrite length_app, length_map; simpl; lia|].
    split.
    { apply Forall_app. split; [apply Hplain|]. by apply Forall_singleton. }
    split; [done|]. intros _. done.
Qed.
End InitFileFacts.

(** ** The output queues *)

(** The line queue keeps the newest: after a run of [sendLine] it holds
    the last [cap] of what it held and what was sent, in order. *)
Theorem sendLine_keeps_newest (cap : nat) (q ls : list Line) :
  length q ≤ cap →
  foldl (sendLine cap) q ls = drop (length (q ++ ls) - cap) (q ++ ls).
Proof.
  revert q. induction ls as [|l ls IH]; intros q Hq.
  - simpl. rewrite app_nil_r. by replace (length q - cap) with 0 by lia.
  - simpl. unfold sendLine at 2.
    destruct (decide (length q < cap)) as [Hroom|Hfull].
    + rewrite IH by (rewrite length_app; simpl; lia).
      by rewrite <- app_assoc.
    + destruct q as [|x q'].
      * simpl in *. assert (cap = 0) as -> by lia.
        rewrite decide_False by lia. rewrite IH by (simpl; lia).
        simpl. by rewrite !Nat.sub_0_r.
      * simpl in Hq, Hfull. rewrite decide_True by lia.
        rewrite IH by (rewrite length_app; simpl; lia).
        rewrite <- !app_assoc. simpl. rewrite !length_app. simpl.
        replace (S (length q' + S (length ls)) - cap)
          with (S (length q' + S (length ls) - cap)) by lia.
        done.
Qed.

(** The error queue keeps the oldest: after a run of [sendErr] it holds
    the first [cap] of what it held and what was sent. *)
Theorem sendErr_keeps_oldest (cap : nat) (q es : list error) :
  length q ≤ cap →
  foldl (sendErr cap) q es = take cap (q ++ es).
Proof.
  revert q. induction es as [|e es IH]; intros q Hq.
  - simpl. rewrite app_nil_r. by rewrite take_ge.
  - simpl. unfold sendErr at 2.
    destruct (decide (length q < cap)) as [Hroom|Hfull].
    + rewrite IH by (rewrite length_app; simpl; lia).
      by rewrite <- app_assoc.
    + rewrite IH by done. rewrite !take_app_le by lia. done.
Qed.

(** ** The reader, the registration and the queues on concrete inputs *)

Lemma readFromOffset_bounded_witness :
  let r := readFromOffset (test_cfg 10)
             {[ "long.log" := Regular (replicate 50 x61 ++ [LF]) ]}
             "long.log" fileState_zero 0 false in
  Forall (λ e, String.length (Text e) ≤ 10 + 12) (r_sent r)
  ∧ (r_err r = None → (len (partial (r_state r)) ≤ 10)%Z).
Proof.
  apply (readFromOffset_bounded (test_cfg 10)
           {[ "long.log" := Regular (replicate 50 x61 ++ [LF]) ]}
           "long.log" fileState_zero 0 false).
  simpl. lia.
Defined.

Lemma partial_without_terminator_witness :
  LF ∉ partial (r_state (readNew (test_cfg 0)
                           {[ "partial.log" := Regular hello_world ]}
                           "partial.log" hello_held)).
Proof.
  apply (partial_without_terminator (test_cfg 0)
           {[ "partial.log" := Regular hello_world ]} "partial.log" hello_held 5 true).
  intros Hin.
  repeat (apply elem_of_cons in Hin as [Hin|Hin]; [discriminate Hin|]).
  by apply elem_of_nil in Hin.
Defined.

Lemma readNew_offset_witness :
  let r := readNew (test_cfg 0) {[ "partial.log" := Regular hello_world ]}
             "partial.log" hello_held in
  r_err r = None ∧ offset (r_state r) = len hello_world.
Proof.
  apply (readNew_offset (test_cfg 0) {[ "partial.log" := Regular hello_world ]}
           "partial.log" hello_world hello_held).
  - apply lookup_singleton_eq.
  - simpl. lia.
Defined.

Lemma readNew_twice_witness :
  let fs : gmap string node := {[ "partial.log" := Regular hello_world ]} in
  let r1 := readNew (test_cfg 0) fs "partial.log" hello_held in
  let r2 := readNew (test_cfg 0) fs "partial.log" (r_state r1) in
  r_sent r2 = [] ∧ r_state r2 = r_state r1 ∧ r_err r2 = None.
Proof.
  apply (readNew_twice (test_cfg 0) {[ "partial.log" := Regular hello_world ]}
           "partial.log" hello_world hello_held).
  - apply lookup_singleton_eq.
  - simpl. lia.
Defined.

(** ["hello"], then [" world\n"] appended. *)
Lemma readNew_continues_witness :
  let a := list_byte_of_string "hello" in
  let b := list_byte_of_string " world" ++ [LF] in
  let r1 := readFromOffset (test_cfg 0) {[ "partial.log" := Regular a ]}
              "partial.log" fileState_zero 0 false in
  let r2 := readNew (test_cfg 0) {[ "partial.log" := Regular (a ++ b) ]}
              "partial.log" (r_state r1) in
  completedTexts (r_sent r1) ++ completedTexts (r_sent r2) = completeLines (a ++ b)
  ∧ partial (r_state r2) = trimTrailingCR (fragment (a ++ b))
  ∧ offset (r_state r2) = len (a ++ b).
Proof.
  apply (readNew_continues (test_cfg 0)
           {[ "partial.log" := Regular (list_byte_of_string "hello") ]}
           {[ "partial.log" := Regular (list_byte_of_string "hello"
                                         ++ list_byte_of_string " world" ++ [LF]) ]}
           "partial.log" (list_byte_of_string "hello")
           (list_byte_of_string " world" ++ [LF])).
  - apply lookup_singleton_eq.
  - apply lookup_singleton_eq.
  - reflexivity.
  - left. simpl. lia.
Defined.

Lemma initFile_then_readNew_witness :
  let fs : gmap string node := {[ "sample.log" := Regular three_lines_open ]} in
  let init := initFile (tail_cfg 2) fs "sample.log" fileState_zero in
  let r := readNew (tail_cfg 2) fs "sample.log" (snd (fst init)) in
  fst (fst init) = None
  ∧ offset (snd (fst init)) = len three_lines_open
  ∧ r_sent r = []
  ∧ r_state r = snd (fst init).
Proof.
  apply (initFile_then_readNew (tail_cfg 2)
           {[ "sample.log" := Regular three_lines_open ]} "sample.log" three_lines_open).
  apply lookup_singleton_eq.
Defined.

(** The second file of [TestTailLastLines] at registration with
    [N = 2]: the line ["two"], then the partial ["three"]. *)
Lemma initFile_seek_tail_witness :
  let init := initFile (tail_cfg 2) {[ "sample.log" := Regular three_lines_open ]}
                "sample.log" fileState_zero in
  snd init = [plainLine "sample.log" "two"; partialLine "sample.log" "three"]
  ∧ partial (snd (fst init)) = list_byte_of_string "three"
  ∧ partialDisplayed (snd (fst init)) = true.
Proof.
  destruct (initFile_seek_tail (tail_cfg 2)
              {[ "sample.log" := Regular three_lines_open ]} "sample.log"
              three_lines_open fileState_zero) as (_ & _ & _ & Hpart).
  - apply lookup_singleton_eq.
  - reflexivity.
  - simpl. lia.
  - apply Hpart. vm_compute. congruence.
Defined.

(** Three events into an empty queue of capacity two: the first is
    dropped. *)
Lemma sendLine_keeps_newest_witness :
  foldl (sendLine 2) [] three_events
    = [plainLine "app.log" "two"; partialLine "app.log" "thr"].
Proof.
  rewrite (sendLine_keeps_newest 2 [] three_events); [reflexivity|].
  simpl. lia.
Defined.

(** Three errors into an empty queue of capacity two: the last is
    dropped. *)
Lemma sendErr_keeps_oldest_witness :
  foldl (sendErr 2) [] [ErrNotExist; ErrIsDir; ErrInvalid] = [ErrNotExist; ErrIsDir].
Proof.
  rewrite (sendErr_keeps_oldest 2 [] [ErrNotExist; ErrIsDir; ErrInvalid]);
    [reflexivity|].
  simpl. lia.
Defined.
